(** * VoTune-AI: the playlist service and the mood service

    A shallow embedding of the two request handlers of the repository:

    - [src/1.py], the Flask handler [get_playlist] behind [GET /playlist],
      whose loop filters the candidates returned by the search provider;
    - [src/backend/main.py], the FastAPI handlers [analyze_mood] and
      [analyze_audio].

    Python values are modelled as decoded JSON, uncaught Python exceptions as
    the [Raise] case of a result type, and the collaborators reached over the
    network (the search provider, the classifier, the rest of the audio
    pipeline) as function arguments of the handlers. *)

From Stdlib Require Import ZArith List String Ascii Bool Lia.
From Stdlib Require Import Floats.SpecFloat.
From Equations Require Import Equations.
Import ListNotations.

#[local] Set Warnings "-register-all".
Local Open Scope string_scope.
Local Open Scope list_scope.
Local Open Scope Z_scope.

(** ** Python values *)

Module Py.

(** What [json.loads] builds: [None], [bool], [int], [float], [str], [list]
    and [dict] with string keys.  A float is a binary64 number; a dict is
    the sequence of its items, keys distinct. *)
Inductive value : Type :=
| None_
| Bool (b : bool)
| Int (z : Z)
| Float (f : spec_float)
| Str (s : string)
| List (l : list value)
| Dict (d : list (string * value)).

(** The exceptions the handlers can let escape. *)
Inductive exn : Type :=
| AttributeError
| TypeError
| KeyError
| IndexError
| ValueError
| RuntimeError
| RecursionError.

Inductive result (A : Type) : Type :=
| Ok (a : A)
| Raise (e : exn).
Arguments Ok {A} a.
Arguments Raise {A} e.

Definition bind {A B : Type} (r : result A) (k : A -> result B) : result B :=
  match r with
  | Ok a => k a
  | Raise e => Raise e
  end.

Notation "x <- r ;; k" := (bind r (fun x => k))
  (at level 61, r at next level, right associativity).

(** [d.get(k)] on the items of a dict. *)
Fixpoint lookup (d : list (string * value)) (k : string) : option value :=
  match d with
  | [] => None
  | (k', v) :: d' => if String.eqb k k' then Some v else lookup d' k
  end.

(** [obj.get(k, default)]: only a dict has the method. *)
Definition get (obj : value) (k : string) (default : value) : result value :=
  match obj with
  | Dict d =>
      Ok (match lookup d k with
          | Some v => v
          | None => default
          end)
  | _ => Raise AttributeError
  end.

(** [obj[k]] for a string [k]. *)
Definition getitem (obj : value) (k : string) : result value :=
  match obj with
  | Dict d =>
      match lookup d k with
      | Some v => Ok v
      | None => Raise KeyError
      end
  | _ => Raise TypeError
  end.

(** [k in obj] for a string [k]: key membership in a dict, element
    membership in a list, substring test in a string. *)
Definition is_str (k : string) (v : value) : bool :=
  match v with
  | Str s => String.eqb k s
  | _ => false
  end.

Definition has_substring (k s : string) : bool :=
  match String.index 0 k s with
  | Some _ => true
  | None => false
  end.

Definition contains (obj : value) (k : string) : result bool :=
  match obj with
  | Dict d => Ok (match lookup d k with Some _ => true | None => false end)
  | List l => Ok (existsb (is_str k) l)
  | Str s => Ok (has_substring k s)
  | _ => Raise TypeError
  end.

(** [isinstance(v, list)]. *)
Definition is_list (v : value) : bool :=
  match v with
  | List _ => true
  | _ => false
  end.

(** Truth value, as [if v] tests it. *)
Definition truthy (v : value) : bool :=
  match v with
  | None_ => false
  | Bool b => b
  | Int z => negb (z =? 0)
  | Float (S754_zero _) => false
  | Float _ => true
  | Str s => negb (String.eqb s "")
  | List l => match l with [] => false | _ => true end
  | Dict d => match d with [] => false | _ => true end
  end.

(** *** Hashing

    A [set] compares its members with [==] (or identity), so that [True],
    [1] and [1.0] are one member.  A hashable value is sent to a canonical
    key on which that comparison is syntactic equality: every number with
    an integral value goes to that integer, any other finite float to
    [sign, odd mantissa, exponent], and the (unique) [NaN] object of the
    JSON decoder to itself.  Lists and dicts are unhashable. *)
Inductive key : Type :=
| KNone
| KInt (z : Z)
| KFrac (s : bool) (m : positive) (e : Z)
| KInf (s : bool)
| KNaN
| KStr (s : string).

Fixpoint odd_part (m : positive) (e : Z) : positive * Z :=
  match m with
  | xO m' => odd_part m' (e + 1)
  | _ => (m, e)
  end.

Definition float_key (f : spec_float) : key :=
  match f with
  | S754_zero _ => KInt 0
  | S754_infinity s => KInf s
  | S754_nan => KNaN
  | S754_finite s m e =>
      let '(m', e') := odd_part m e in
      if 0 <=? e'
      then KInt (cond_Zopp s (Z.pos m' * 2 ^ e'))
      else KFrac s m' e'
  end.

Definition hash (v : value) : result key :=
  match v with
  | None_ => Ok KNone
  | Bool b => Ok (KInt (Z.b2z b))
  | Int z => Ok (KInt z)
  | Float f => Ok (float_key f)
  | Str s => Ok (KStr s)
  | List _ | Dict _ => Raise TypeError
  end.

Definition key_eqb (a b : key) : bool :=
  match a, b with
  | KNone, KNone => true
  | KInt x, KInt y => x =? y
  | KFrac s m e, KFrac s' m' e' =>
      Bool.eqb s s' && Pos.eqb m m' && (e =? e')
  | KInf s, KInf s' => Bool.eqb s s'
  | KNaN, KNaN => true
  | KStr s, KStr s' => String.eqb s s'
  | _, _ => false
  end.

(** A [set], as the sequence of its members in insertion order. *)
Definition pyset : Type := list key.

Definition set_mem (k : key) (s : pyset) : bool := existsb (key_eqb k) s.

Definition set_add (s : pyset) (k : key) : pyset :=
  if set_mem k s then s else s ++ [k].

End Py.

(** ** The playlist service ([src/1.py]) *)

Module Playlist.
Import Py.

Definition DEEZER_API_URL : string := "https://api.deezer.com/search".
Definition TARGET_SONGS : Z := 5.
Definition DEFAULT_QUERY : string := "lofi".

(** The dict [track_info] of the loop: three fixed keys. *)
Record track_info : Type := {
  title : value;
  artist : value;
  preview_url : value
}.

(** The variables the loop updates.  [accepted] is a history variable that
    the program does not have: the songs, in order, that passed the test
    and had an entry appended.  Nothing the handler returns reads it. *)
Record loop_state : Type := {
  filtered_playlist : list track_info;
  seen_track_ids : pyset;
  accepted : list value
}.

Definition initial_state : loop_state :=
  {| filtered_playlist := []; seen_track_ids := []; accepted := [] |}.

Inductive flow : Type := Continue | Break.

(** One iteration of [for song in songs], with [target] for the module
    constant [TARGET_SONGS]. *)
Definition loop_body (target : Z) (st : loop_state) (song : value)
  : result (loop_state * flow) :=
  title <- get song "title" None_ ;;
  artist <- get song "artist" (Dict []) ;;
  artist_name <- get artist "name" None_ ;;
  preview_url <- get song "preview" None_ ;;
  track_id <- get song "id" None_ ;;
  if truthy preview_url then
    k <- hash track_id ;;
    if negb (set_mem k (seen_track_ids st)) then
      let track_info :=
        {| title := title; artist := artist_name; preview_url := preview_url |} in
      let st' :=
        {| filtered_playlist := filtered_playlist st ++ [track_info];
           seen_track_ids := set_add (seen_track_ids st) k;
           accepted := accepted st ++ [song] |} in
      if Z.of_nat (List.length (filtered_playlist st')) >=? target
      then Ok (st', Break)
      else Ok (st', Continue)
    else Ok (st, Continue)
  else Ok (st, Continue).

Fixpoint for_songs (target : Z) (st : loop_state) (songs : list value)
  : result loop_state :=
  match songs with
  | [] => Ok st
  | song :: rest =>
      match loop_body target st song with
      | Raise e => Raise e
      | Ok (st', Break) => Ok st'
      | Ok (st', Continue) => for_songs target st' rest
      end
  end.

(** Lines 68 to 93: the loop from its initial variables. *)
Definition filter_songs (target : Z) (songs : list value) : result loop_state :=
  for_songs target initial_state songs.

(** *** The handler *)

(** [request.args]: the query string's pairs, in order. *)
Definition query_args : Type := list (string * string).

(** [request.args.get(k, default)]: the first value given for [k]. *)
Fixpoint args_get (args : query_args) (k : string) (default : string) : string :=
  match args with
  | [] => default
  | (k', v) :: args' => if String.eqb k k' then v else args_get args' k default
  end.

Record request_params : Type := { q : string; limit : Z }.

(** How the [try] block ends: with [data], with a [RequestException],
    which the handler catches, or with another exception, which it does
    not (the decoding of line 46 can raise one). *)
Inductive upstream : Type :=
| RequestException
| Json (data : value)
| Escaped (e : exn).

Inductive body : Type :=
| ErrorBody (error message : string)
| SongsBody (songs : list track_info).

Definition response : Type := (body * Z)%type.

Definition search_params (args : query_args) : request_params :=
  {| q := args_get args "q" DEFAULT_QUERY; limit := 20 |}.

Definition upstream_failure : response :=
  (ErrorBody "External API Error"
     "Could not connect to or retrieve data from the Deezer API.", 503).

Definition malformed_response (query : string) : response :=
  (ErrorBody "No Songs Found"
     ("No results found for query '" ++ query
        ++ "' or API response was unexpected."), 404).

Definition no_songs_found (query : string) : response :=
  (ErrorBody "No Songs Found"
     ("Could not find any songs with a preview URL for query '" ++ query
        ++ "'. Try a different search term."), 404).

(** ['data' not in data or not isinstance(data['data'], list)]. *)
Definition data_missing (data : value) : result bool :=
  present <- contains data "data" ;;
  if negb present then Ok true
  else
    v <- getitem data "data" ;;
    Ok (negb (is_list v)).

(** [get_playlist], with the configured target and the search provider as
    arguments; an uncaught exception is [Raise]. *)
Definition get_playlist_with (target : Z)
    (requests_get : string -> request_params -> upstream)
    (args : query_args) : result response :=
  let params := search_params args in
  let query := q params in
  match requests_get DEEZER_API_URL params with
  | RequestException => Ok upstream_failure
  | Json data =>
      missing <- data_missing data ;;
      if missing then Ok (malformed_response query)
      else
        songs <- getitem data "data" ;;
        match songs with
        | List songs =>
            st <- filter_songs target songs ;;
            match filtered_playlist st with
            | [] => Ok (no_songs_found query)
            | _ => Ok (SongsBody (filtered_playlist st), 200)
            end
        | _ => Raise TypeError
        end
  | Escaped e => Raise e
  end.

Definition get_playlist := get_playlist_with TARGET_SONGS.

(** *** Sample candidates *)

Definition mk_song (id : Z) (t a p : string) : value :=
  Dict [("id", Int id); ("title", Str t);
        ("artist", Dict [("name", Str a)]); ("preview", Str p)].

Definition mk_track (t a p : string) : track_info :=
  {| title := Str t; artist := Str a; preview_url := Str p |}.

End Playlist.

(** ** Facts about the Python model *)

Module PyFacts.
Import Py.

Lemma key_eqb_refl (a : key) : key_eqb a a = true.
Proof.
  destruct a; simpl; trivial.
  - apply Z.eqb_refl.
  - now rewrite Bool.eqb_reflx, Pos.eqb_refl, Z.eqb_refl.
  - apply Bool.eqb_reflx.
  - apply String.eqb_refl.
Qed.

Lemma key_eqb_eq (a b : key) : key_eqb a b = true <-> a = b.
Proof.
  split; [| intros <-; apply key_eqb_refl].
  destruct a, b; simpl; intros H; try discriminate; try reflexivity.
  - apply Z.eqb_eq in H. now subst.
  - apply andb_true_iff in H as [H He].
    apply andb_true_iff in H as [Hs Hm].
    apply Bool.eqb_prop in Hs. apply Pos.eqb_eq in Hm. apply Z.eqb_eq in He.
    now subst.
  - apply Bool.eqb_prop in H. now subst.
  - apply String.eqb_eq in H. now subst.
Qed.

Lemma set_mem_In (k : key) (s : pyset) : set_mem k s = true <-> In k s.
Proof.
  unfold set_mem. rewrite existsb_exists. split.
  - intros [x [Hx Heq]]. apply key_eqb_eq in Heq. now subst.
  - intros H. exists k. split; [assumption | now apply key_eqb_eq].
Qed.

Lemma set_mem_false (k : key) (s : pyset) : set_mem k s = false <-> ~ In k s.
Proof.
  rewrite <- set_mem_In. destruct (set_mem k s); split; intros H.
  - discriminate.
  - now elim H.
  - discriminate.
  - reflexivity.
Qed.

Lemma set_add_fresh (k : key) (s : pyset) :
  set_mem k s = false -> set_add s k = s ++ [k].
Proof. unfold set_add. now intros ->. Qed.

Lemma NoDup_snoc (k : key) (s : pyset) :
  NoDup s -> ~ In k s -> NoDup (s ++ [k]).
Proof.
  intros Hs Hk. induction Hs as [| x l Hx Hl IH]; simpl.
  - constructor; [intros [] | constructor].
  - constructor.
    + rewrite in_app_iff. intros [H | [H | []]].
      * now apply Hx.
      * subst. apply Hk. now left.
    + apply IH. intros H. apply Hk. now right.
Qed.

Lemma truthy_not_none (v : value) : truthy v = true -> v <> None_.
Proof. intros H ->. discriminate. Qed.

Lemma truthy_not_empty (v : value) : truthy v = true -> v <> Str "".
Proof. intros H ->. discriminate. Qed.

End PyFacts.

(** ** The filtering loop, iteration by iteration *)

Module LoopFacts.
Import Py PyFacts Playlist.

(** The entry lines 73 to 75 and 82 to 86 build from a song. *)
Definition track_of (song : value) : result track_info :=
  title <- get song "title" None_ ;;
  artist <- get song "artist" (Dict []) ;;
  artist_name <- get artist "name" None_ ;;
  preview_url <- get song "preview" None_ ;;
  Ok {| title := title; artist := artist_name; preview_url := preview_url |}.

(** The [track_id] of line 76. *)
Definition track_id_of (song : value) : result value := get song "id" None_.

(** The member of [seen_track_ids] that stands for a song. *)
Definition track_key (song : value) : result key :=
  track_id <- track_id_of song ;;
  hash track_id.

(** Lines 88 and 89. *)
Definition push (st : loop_state) (e : track_info) (k : key) (song : value)
  : loop_state :=
  {| filtered_playlist := filtered_playlist st ++ [e];
     seen_track_ids := seen_track_ids st ++ [k];
     accepted := accepted st ++ [song] |}.

Definition count (st : loop_state) : Z :=
  Z.of_nat (List.length (filtered_playlist st)).

Lemma count_push st e k song : count (push st e k song) = count st + 1.
Proof. unfold count, push. simpl. rewrite length_app. simpl. lia. Qed.

(** How an iteration that raises nothing ends. *)
Inductive outcome (target : Z) (st : loop_state) (song : value)
  : loop_state -> flow -> Prop :=
| no_preview e :
    track_of song = Ok e ->
    truthy (preview_url e) = false ->
    outcome target st song st Continue
| duplicate e k :
    track_of song = Ok e ->
    truthy (preview_url e) = true ->
    track_key song = Ok k ->
    In k (seen_track_ids st) ->
    outcome target st song st Continue
| taken e k :
    track_of song = Ok e ->
    truthy (preview_url e) = true ->
    track_key song = Ok k ->
    ~ In k (seen_track_ids st) ->
    count st + 1 < target ->
    outcome target st song (push st e k song) Continue
| taken_last e k :
    track_of song = Ok e ->
    truthy (preview_url e) = true ->
    track_key song = Ok k ->
    ~ In k (seen_track_ids st) ->
    target <= count st + 1 ->
    outcome target st song (push st e k song) Break.

(** The iteration, regrouped: the entry first, then the test. *)
Lemma loop_body_unfold target st song :
  loop_body target st song =
  (e <- track_of song ;;
   if truthy (preview_url e) then
     k <- track_key song ;;
     if set_mem k (seen_track_ids st) then Ok (st, Continue)
     else if count (push st e k song) >=? target
          then Ok (push st e k song, Break)
          else Ok (push st e k song, Continue)
   else Ok (st, Continue)).
Proof.
  unfold loop_body, track_of, track_key, track_id_of.
  destruct song as [| | | | | | d]; simpl; try reflexivity.
  destruct (get _ "name" _) as [artist_name |]; simpl; [| reflexivity].
  destruct (truthy _); [| reflexivity].
  destruct (hash _) as [k |]; simpl; [| reflexivity].
  destruct (set_mem k (seen_track_ids st)) eqn:Hmem; simpl; [reflexivity |].
  unfold push, count. simpl. rewrite (set_add_fresh _ _ Hmem). reflexivity.
Qed.

Lemma loop_body_outcome target st song st' fl :
  loop_body target st song = Ok (st', fl) <-> outcome target st song st' fl.
Proof.
  rewrite loop_body_unfold. split.
  - destruct (track_of song) as [e |] eqn:He; simpl; [| discriminate].
    destruct (truthy (preview_url e)) eqn:Hp.
    + destruct (track_key song) as [k |] eqn:Hk; simpl; [| discriminate].
      destruct (set_mem k (seen_track_ids st)) eqn:Hmem.
      * intros [= <- <-]. apply set_mem_In in Hmem. eapply duplicate; eauto.
      * apply set_mem_false in Hmem. rewrite count_push.
        destruct (count st + 1 >=? target) eqn:Hc; intros [= <- <-].
        -- eapply taken_last; eauto. lia.
        -- eapply taken; eauto. lia.
    + intros [= <- <-]. eapply no_preview; eauto.
  - intros H. destruct H as [e He Hp | e k He Hp Hk Hin | e k He Hp Hk Hin Hc
                            | e k He Hp Hk Hin Hc];
      rewrite He; simpl; rewrite Hp; try reflexivity; rewrite Hk; simpl.
    + apply set_mem_In in Hin. now rewrite Hin.
    + apply set_mem_false in Hin. rewrite Hin, count_push.
      destruct (count st + 1 >=? target) eqn:Hc'; [lia | reflexivity].
    + apply set_mem_false in Hin. rewrite Hin, count_push.
      destruct (count st + 1 >=? target) eqn:Hc'; [reflexivity | lia].
Qed.

(** *** Runs of the loop *)

Inductive run (target : Z) : loop_state -> list value -> loop_state -> Prop :=
| run_done st :
    run target st [] st
| run_break st song rest st' :
    outcome target st song st' Break ->
    run target st (song :: rest) st'
| run_next st song rest st1 st' :
    outcome target st song st1 Continue ->
    run target st1 rest st' ->
    run target st (song :: rest) st'.

Lemma for_songs_run target songs :
  forall st st', for_songs target st songs = Ok st' <-> run target st songs st'.
Proof.
  induction songs as [| song rest IH]; intros st st'; simpl.
  - split.
    + intros [= <-]. constructor.
    + intros H. inversion H. reflexivity.
  - split.
    + destruct (loop_body target st song) as [[st1 []] |] eqn:Hb;
        try discriminate.
      * intros H. apply loop_body_outcome in Hb. apply IH in H.
        eapply run_next; eauto.
      * intros [= <-]. apply loop_body_outcome in Hb. now apply run_break.
    + intros H. inversion H as [| ? ? ? ? Ho | ? ? ? st1 ? Ho Hr]; subst.
      * apply loop_body_outcome in Ho. now rewrite Ho.
      * apply loop_body_outcome in Ho. rewrite Ho. now apply IH.
Qed.

(** What every reachable state satisfies: entry [i] was built from accepted
    song [i] and has a true preview, member [i] of the set is the key of
    that song, and the members are distinct. *)
Definition built_from (song : value) (e : track_info) : Prop :=
  track_of song = Ok e /\ truthy (preview_url e) = true.

Definition keyed_by (song : value) (k : key) : Prop :=
  track_key song = Ok k.

Record consistent (st : loop_state) : Prop := {
  entries_built : Forall2 built_from (accepted st) (filtered_playlist st);
  ids_recorded : Forall2 keyed_by (accepted st) (seen_track_ids st);
  ids_distinct : NoDup (seen_track_ids st)
}.

Lemma consistent_initial : consistent initial_state.
Proof. split; simpl; constructor. Qed.

Lemma consistent_push st e k song :
  consistent st ->
  track_of song = Ok e -> truthy (preview_url e) = true ->
  track_key song = Ok k -> ~ In k (seen_track_ids st) ->
  consistent (push st e k song).
Proof.
  intros [Hb Hk Hd] He Hp Hkey Hin. split; simpl.
  - apply Forall2_app; [assumption |]. repeat constructor; assumption.
  - apply Forall2_app; [assumption |]. repeat constructor; assumption.
  - now apply NoDup_snoc.
Qed.

Lemma outcome_consistent target st song st' fl :
  consistent st -> outcome target st song st' fl -> consistent st'.
Proof.
  intros Hc Ho. destruct Ho; auto using consistent_push.
Qed.

Lemma run_consistent target st songs st' :
  run target st songs st' -> consistent st -> consistent st'.
Proof.
  induction 1; eauto using outcome_consistent.
Qed.

(** The count grows by at most one an iteration, and the loop is left as
    soon as it is [target] or more. *)
Lemma outcome_count target st song st' fl :
  outcome target st song st' fl ->
  (st' = st /\ fl = Continue) \/
  (count st' = count st + 1 /\
   (fl = Continue /\ count st' < target \/ fl = Break /\ target <= count st')).
Proof.
  intros Ho. destruct Ho; auto; right; rewrite count_push; split; auto.
Qed.

Lemma run_count target st songs st' :
  run target st songs st' ->
  count st < Z.max 1 target -> count st' <= Z.max 1 target.
Proof.
  induction 1 as [st | st song rest st' Ho | st song rest st1 st' Ho Hr IH];
    intros Hlt.
  - lia.
  - apply outcome_count in Ho as [[-> _] | [Hc _]]; lia.
  - apply IH. apply outcome_count in Ho as [[-> _] | [Hc [[_ H] | [H _]]]];
      [lia | lia | discriminate].
Qed.

(** *** Order *)

(** [subseq l l']: [l] is [l'] with some elements left out, order kept. *)
Inductive subseq {A : Type} : list A -> list A -> Prop :=
| subseq_nil : subseq [] []
| subseq_skip x l l' : subseq l l' -> subseq l (x :: l')
| subseq_take x l l' : subseq l l' -> subseq (x :: l) (x :: l').

Lemma subseq_empty {A : Type} (l : list A) : subseq [] l.
Proof. induction l; constructor; assumption. Qed.

Lemma outcome_accepted target st song st' fl :
  outcome target st song st' fl ->
  accepted st' = accepted st \/ accepted st' = accepted st ++ [song].
Proof. intros Ho. destruct Ho; auto. Qed.

Lemma run_accepted target st songs st' :
  run target st songs st' ->
  exists new, accepted st' = accepted st ++ new /\ subseq new songs.
Proof.
  induction 1 as [st | st song rest st' Ho | st song rest st1 st' Ho Hr IH].
  - exists []. split; [now rewrite app_nil_r | constructor].
  - apply outcome_accepted in Ho as [-> | ->].
    + exists []. split; [now rewrite app_nil_r | apply subseq_empty].
    + exists [song]. split; [reflexivity |].
      apply subseq_take, subseq_empty.
  - destruct IH as [new [Hacc Hsub]].
    apply outcome_accepted in Ho as [Heq | Heq]; rewrite Heq in Hacc.
    + exists new. split; [assumption | now apply subseq_skip].
    + exists (song :: new). split; [| now apply subseq_take].
      now rewrite Hacc, <- app_assoc.
Qed.

(** *** Leaving the loop *)

(** A run that ends below the target has not left the loop: more songs
    are read from where it ended. *)
Lemma run_resume target st pre st1 :
  run target st pre st1 -> count st1 < target ->
  forall post st', run target st1 post st' -> run target st (pre ++ post) st'.
Proof.
  induction 1 as [st | st song rest st' Ho | st song rest st1 st' Ho Hr IH];
    intros Hlt post st2 Hpost; simpl.
  - assumption.
  - apply outcome_count in Ho as [[_ [=]] | [_ [[[=] _] | [_ Hge]]]]. lia.
  - eapply run_next; eauto.
Qed.

(** A run that starts below the target and ends at or above it was cut at
    the song whose entry made the count reach the target. *)
Lemma run_cut target st songs st' :
  run target st songs st' -> count st < target -> target <= count st' ->
  exists pre last post st1,
    songs = pre ++ last :: post /\
    run target st pre st1 /\ count st1 < target /\
    outcome target st1 last st' Break.
Proof.
  induction 1 as [st | st song rest st' Ho | st song rest st1 st' Ho Hr IH];
    intros Hlt Hge.
  - lia.
  - exists [], song, rest, st. repeat split; auto. constructor.
  - assert (Hlt1 : count st1 < target).
    { apply outcome_count in Ho as [[-> _] | [_ [[_ H] | [[=] _]]]]; lia. }
    destruct (IH Hlt1 Hge) as [pre [last [post [st2 [-> [Hpre [Hc Hlast]]]]]]].
    exists (song :: pre), last, post, st2. repeat split; auto.
    eapply run_next; eauto.
Qed.

(** *** The filter, as the specification words it

    A song qualifies when it has a preview; a qualifying song is kept when
    no earlier qualifying song has its id; the playlist is the first
    [target] kept songs. *)
Definition candidate (song : value) : option (key * track_info) :=
  match track_of song, track_key song with
  | Ok e, Ok k => if truthy (preview_url e) then Some (k, e) else None
  | _, _ => None
  end.

Definition has_key (k : key) (song : value) : bool :=
  match candidate song with
  | Some (k', _) => key_eqb k k'
  | None => false
  end.

Fixpoint keep_first (earlier : list value) (songs : list value)
  : list track_info :=
  match songs with
  | [] => []
  | song :: rest =>
      match candidate song with
      | Some (k, e) =>
          if existsb (has_key k) earlier
          then keep_first (earlier ++ [song]) rest
          else e :: keep_first (earlier ++ [song]) rest
      | None => keep_first (earlier ++ [song]) rest
      end
  end.

Definition playlist_spec (target : Z) (songs : list value) : list track_info :=
  firstn (Z.to_nat target) (keep_first [] songs).

(** [seen_track_ids] holds the ids of the qualifying songs read so far. *)
Definition tracks (seen : pyset) (earlier : list value) : Prop :=
  forall k, In k seen <-> existsb (has_key k) earlier = true.

Lemma tracks_skip seen earlier song :
  tracks seen earlier -> candidate song = None ->
  tracks seen (earlier ++ [song]).
Proof.
  intros Ht Hc k. rewrite existsb_app. simpl. unfold has_key at 2.
  rewrite Hc. simpl. rewrite orb_false_r. apply Ht.
Qed.

Lemma tracks_duplicate seen earlier song k e :
  tracks seen earlier -> candidate song = Some (k, e) -> In k seen ->
  tracks seen (earlier ++ [song]).
Proof.
  intros Ht Hc Hin k'. rewrite existsb_app. simpl. unfold has_key at 2.
  rewrite Hc, orb_false_r, orb_true_iff, <- (Ht k'), key_eqb_eq.
  split; [auto | intros [H | ->]; assumption].
Qed.

Lemma tracks_taken seen earlier song k e :
  tracks seen earlier -> candidate song = Some (k, e) ->
  tracks (seen ++ [k]) (earlier ++ [song]).
Proof.
  intros Ht Hc k'. rewrite existsb_app, in_app_iff. simpl. unfold has_key at 2.
  rewrite Hc, orb_false_r, orb_true_iff, <- (Ht k'), key_eqb_eq.
  split; (intros [H | H]; [now left | right]); [destruct H as [H | []] |];
    auto.
Qed.

Lemma run_keep_first target st songs st' :
  run target st songs st' ->
  forall earlier, tracks (seen_track_ids st) earlier -> count st < target ->
  filtered_playlist st' =
  filtered_playlist st
    ++ firstn (Z.to_nat (target - count st)) (keep_first earlier songs).
Proof.
  induction 1 as [st | st song rest st' Ho | st song rest st1 st' Ho Hr IH];
    intros earlier Ht Hlt; simpl.
  - now rewrite firstn_nil, app_nil_r.
  - inversion Ho as [| | | e k He Hp Hk Hin Hc]; subst.
    unfold candidate. rewrite He, Hk, Hp.
    destruct (existsb (has_key k) earlier) eqn:Hex;
      [apply Ht in Hex; contradiction |].
    replace (Z.to_nat (target - count st)) with 1%nat by lia.
    reflexivity.
  - inversion Ho as [e He Hp | e k He Hp Hk Hin | e k He Hp Hk Hin Hc |];
      subst.
    + assert (Hc : candidate song = None).
      { unfold candidate. rewrite He, Hp. now destruct (track_key song). }
      rewrite Hc. apply IH; [now apply tracks_skip | assumption].
    + assert (Hc : candidate song = Some (k, e)).
      { unfold candidate. now rewrite He, Hk, Hp. }
      rewrite Hc. apply Ht in Hin as Hex. rewrite Hex.
      apply IH; [now apply (tracks_duplicate _ _ _ k e) | assumption].
    + assert (Hcand : candidate song = Some (k, e)).
      { unfold candidate. now rewrite He, Hk, Hp. }
      rewrite Hcand.
      destruct (existsb (has_key k) earlier) eqn:Hex;
        [apply Ht in Hex; contradiction |].
      rewrite (IH (earlier ++ [song])).
      * rewrite count_push. simpl. rewrite <- app_assoc. simpl.
        replace (Z.to_nat (target - count st))
          with (S (Z.to_nat (target - (count st + 1)))) by lia.
        reflexivity.
      * now apply (tracks_taken _ _ _ k e).
      * rewrite count_push. lia.
Qed.

(** *** Reading the invariant *)

Lemma Forall2_nth_error {A B : Type} (R : A -> B -> Prop) l l' :
  Forall2 R l l' ->
  forall i x, nth_error l i = Some x ->
  exists y, nth_error l' i = Some y /\ R x y.
Proof.
  induction 1 as [| a b l l' Hab Hl IH]; intros [| i] x Hx;
    try discriminate; simpl in *.
  - injection Hx as <-. eauto.
  - eauto.
Qed.

Lemma track_of_dict song e :
  track_of song = Ok e ->
  exists d, song = Dict d /\
    preview_url e = match lookup d "preview" with
                    | Some v => v
                    | None => None_
                    end.
Proof.
  unfold track_of. destruct song as [| | | | | | d]; simpl; try discriminate.
  destruct (get _ "name" _); simpl; [| discriminate].
  intros [= <-]. eauto.
Qed.

(** A song without an ["id"] item. *)
Definition lacks_id (song : value) : bool :=
  match song with
  | Dict d => match lookup d "id" with Some _ => false | None => true end
  | _ => false
  end.

Lemma lacks_id_key song : lacks_id song = true -> track_key song = Ok KNone.
Proof.
  unfold lacks_id, track_key, track_id_of.
  destruct song as [| | | | | | d]; try discriminate. simpl.
  destruct (lookup d "id"); [discriminate | reflexivity].
Qed.

Lemma no_key_no_song (acc : list value) (seen : pyset) :
  Forall2 keyed_by acc seen -> ~ In KNone seen -> filter lacks_id acc = [].
Proof.
  induction 1 as [| song k acc seen Hk Hrest IH]; intros Hnot; simpl.
  - reflexivity.
  - destruct (lacks_id song) eqn:Hl.
    + apply lacks_id_key in Hl. unfold keyed_by in Hk. rewrite Hl in Hk.
      injection Hk as <-. elim Hnot. now left.
    + apply IH. intros Hin. apply Hnot. now right.
Qed.

Lemma one_song_without_id (acc : list value) (seen : pyset) :
  Forall2 keyed_by acc seen -> NoDup seen ->
  (List.length (filter lacks_id acc) <= 1)%nat.
Proof.
  induction 1 as [| song k acc seen Hk Hrest IH]; intros Hnd; simpl.
  - lia.
  - inversion Hnd as [| ? ? Hnotin Hnd']; subst.
    destruct (lacks_id song) eqn:Hl.
    + apply lacks_id_key in Hl. unfold keyed_by in Hk. rewrite Hl in Hk.
      injection Hk as <-. rewrite (no_key_no_song _ _ Hrest Hnotin).
      simpl. lia.
    + auto.
Qed.

Lemma filter_songs_consistent target songs st :
  filter_songs target songs = Ok st -> consistent st.
Proof.
  intros H. apply for_songs_run in H.
  exact (run_consistent _ _ _ _ H consistent_initial).
Qed.

End LoopFacts.

(** ** The playlist service: properties *)

Module PlaylistSpec.
Import Py PyFacts Playlist LoopFacts.

(** The four candidates of the specification's example: a null preview,
    then id 2 twice, then id 3. *)
Definition example_songs : list value :=
  [ Dict [("id", Int 1); ("title", Str "t1");
          ("artist", Dict [("name", Str "a1")]); ("preview", None_)];
    mk_song 2 "t2" "a2" "u2";
    mk_song 2 "t2" "a2" "u2";
    mk_song 3 "t3" "a3" "u3" ].

Definition example_state : loop_state :=
  {| filtered_playlist := [mk_track "t2" "a2" "u2"; mk_track "t3" "a3" "u3"];
     seen_track_ids := [KInt 2; KInt 3];
     accepted := [mk_song 2 "t2" "a2" "u2"; mk_song 3 "t3" "a3" "u3"] |}.

Example example_filtered : filter_songs TARGET_SONGS example_songs = Ok example_state.
Proof. reflexivity. Qed.

(** Ten candidates, ids 1 to 10, each with a preview. *)
Definition ten_songs : list value :=
  [ mk_song 1 "t1" "a1" "u1"; mk_song 2 "t2" "a2" "u2";
    mk_song 3 "t3" "a3" "u3"; mk_song 4 "t4" "a4" "u4";
    mk_song 5 "t5" "a5" "u5"; mk_song 6 "t6" "a6" "u6";
    mk_song 7 "t7" "a7" "u7"; mk_song 8 "t8" "a8" "u8";
    mk_song 9 "t9" "a9" "u9"; mk_song 10 "t10" "a10" "u10" ].

Definition first_two : loop_state :=
  {| filtered_playlist := [mk_track "t1" "a1" "u1"; mk_track "t2" "a2" "u2"];
     seen_track_ids := [KInt 1; KInt 2];
     accepted := [mk_song 1 "t1" "a1" "u1"; mk_song 2 "t2" "a2" "u2"] |}.

(** A target of 0 is met before the first song is read, but the count is
    compared with it only after an entry has been appended. *)
Example zero_target :
  exists st, filter_songs 0 ten_songs = Ok st /\ count st = 1.
Proof. eexists. split; reflexivity. Qed.

(** C1, as stated, fails: with a target of 0 the playlist has one entry. *)
Lemma length_exceeds_zero_target :
  ~ (forall target songs st,
        filter_songs target songs = Ok st ->
        Z.of_nat (List.length (filtered_playlist st)) <= target).
Proof.
  intros H.
  specialize (H 0 [mk_song 1 "t1" "a1" "u1"] _ eq_refl).
  simpl in H. lia.
Qed.

(** C1 (amended): for every candidate sequence and every target count of at
    least 1, the playlist the filter builds has at most [target] entries. *)
Theorem playlist_length_le_target target songs st :
  1 <= target ->
  filter_songs target songs = Ok st ->
  Z.of_nat (List.length (filtered_playlist st)) <= target.
Proof.
  intros Ht H. apply for_songs_run in H. apply run_count in H.
  - unfold count in H. lia.
  - unfold count. simpl. lia.
Qed.

Lemma playlist_length_le_target_witness :
  1 <= TARGET_SONGS /\
  filter_songs TARGET_SONGS example_songs = Ok example_state /\
  Z.of_nat (List.length (filtered_playlist example_state)) <= TARGET_SONGS.
Proof.
  assert (H1 : 1 <= TARGET_SONGS) by (unfold TARGET_SONGS; lia).
  assert (H2 : filter_songs TARGET_SONGS example_songs = Ok example_state)
    by reflexivity.
  exact (conj H1 (conj H2 (playlist_length_le_target _ _ _ H1 H2))).
Defined.

(** C2: the songs the playlist was built from, entry by entry, are
    songs of the input in their order, and no two of them have the same
    [id]: neither equal ids, nor ids the set takes for one member. *)
Theorem accepted_ids_distinct target songs st :
  filter_songs target songs = Ok st ->
  Forall2 built_from (accepted st) (filtered_playlist st) /\
  subseq (accepted st) songs /\
  forall i j si sj,
    nth_error (accepted st) i = Some si ->
    nth_error (accepted st) j = Some sj ->
    i <> j ->
    track_key si <> track_key sj /\ track_id_of si <> track_id_of sj.
Proof.
  intros H. pose proof (filter_songs_consistent _ _ _ H) as [Hb Hk Hd].
  split; [assumption |]. split.
  - apply for_songs_run, run_accepted in H as [new [Hacc Hsub]].
    simpl in Hacc. now rewrite Hacc.
  - intros i j si sj Hi Hj Hij.
    assert (Hkey : track_key si <> track_key sj).
    { destruct (Forall2_nth_error _ _ _ Hk i si Hi) as [ki [Hki Hsi]].
      destruct (Forall2_nth_error _ _ _ Hk j sj Hj) as [kj [Hkj Hsj]].
      unfold keyed_by in Hsi, Hsj. rewrite Hsi, Hsj. intros [= Heq].
      apply Hij. rewrite NoDup_nth_error in Hd. apply Hd.
      - apply nth_error_Some. now rewrite Hki.
      - now rewrite Hki, Hkj, Heq. }
    split; [assumption |]. intros Heq. apply Hkey.
    unfold track_key. now rewrite Heq.
Qed.

Lemma accepted_ids_distinct_witness :
  filter_songs TARGET_SONGS example_songs = Ok example_state /\
  track_key (mk_song 2 "t2" "a2" "u2") <> track_key (mk_song 3 "t3" "a3" "u3").
Proof.
  assert (H : filter_songs TARGET_SONGS example_songs = Ok example_state)
    by reflexivity.
  split; [exact H |].
  destruct (accepted_ids_distinct _ _ _ H) as [_ [_ Hd]].
  apply (Hd 0%nat 1%nat); [reflexivity | reflexivity | discriminate].
Defined.

(** C3: every entry of the playlist has a preview that is neither [None]
    nor the empty string, and every song an entry was built from carries a
    ["preview"] item that is neither. *)
Theorem previews_present target songs st :
  filter_songs target songs = Ok st ->
  Forall (fun e => truthy (preview_url e) = true /\
                   preview_url e <> None_ /\ preview_url e <> Str "")
         (filtered_playlist st) /\
  Forall (fun song => exists d p,
            song = Dict d /\ lookup d "preview" = Some p /\
            p <> None_ /\ p <> Str "")
         (accepted st).
Proof.
  intros H. pose proof (filter_songs_consistent _ _ _ H) as [Hb _ _].
  induction Hb as [| song e acc pl [He Hp] Hrest [IHe IHs]].
  - split; constructor.
  - split; constructor; try assumption.
    + auto using truthy_not_none, truthy_not_empty.
    + destruct (track_of_dict _ _ He) as [d [-> Hprev]].
      destruct (lookup d "preview") as [p |] eqn:Hl.
      * exists d, p. rewrite Hprev in Hp.
        auto using truthy_not_none, truthy_not_empty.
      * rewrite Hprev in Hp. discriminate.
Qed.

Lemma previews_present_witness :
  filter_songs TARGET_SONGS example_songs = Ok example_state /\
  Forall (fun e => truthy (preview_url e) = true /\
                   preview_url e <> None_ /\ preview_url e <> Str "")
         (filtered_playlist example_state).
Proof.
  assert (H : filter_songs TARGET_SONGS example_songs = Ok example_state)
    by reflexivity.
  exact (conj H (proj1 (previews_present _ _ _ H))).
Defined.

(** A song that raises when it is read: it is not a dict. *)
Example read_song_raises :
  filter_songs TARGET_SONGS (firstn 2 ten_songs ++ [None_])
  = Raise AttributeError.
Proof. reflexivity. Qed.

Lemma refines_spec target songs st :
  1 <= target ->
  filter_songs target songs = Ok st ->
  filtered_playlist st = playlist_spec target songs.
Proof.
  intros Ht H. apply for_songs_run in H.
  rewrite (run_keep_first _ _ _ _ H []).
  - simpl. unfold playlist_spec, count. simpl. now rewrite Z.sub_0_r.
  - intros k. simpl. split; [intros [] | discriminate].
  - unfold count. simpl. lia.
Qed.

Lemma stops_at_target target songs st :
  1 <= target ->
  filter_songs target songs = Ok st ->
  target <= count st ->
  exists pre last post st1,
    songs = pre ++ last :: post /\
    filter_songs target pre = Ok st1 /\ count st1 < target /\
    forall post', filter_songs target (pre ++ last :: post') = Ok st.
Proof.
  intros Ht H Hfull. apply for_songs_run in H.
  destruct (run_cut _ _ _ _ H) as [pre [last [post [st1 [-> [Hpre [Hc Hl]]]]]]];
    [unfold count; simpl; lia | assumption |].
  exists pre, last, post, st1. repeat split; try assumption.
  - now apply for_songs_run.
  - intros post'. apply for_songs_run.
    apply (run_resume _ _ _ _ Hpre Hc). now apply run_break.
Qed.

(** C4: with a target of at least 1, the playlist is the first [target]
    songs that have a preview and an id no earlier such song has, in the
    order of the input; once the count has reached the target the loop was
    left at the song that made it so, the songs after it being read no
    more: any songs at all in their place give the same result.  With a
    target of 2, ten songs with a preview and ids 1 to 10 give the entries
    of the first two, in order, whatever follows these two. *)
Theorem first_seen_until_target target songs st :
  1 <= target ->
  filter_songs target songs = Ok st ->
  filtered_playlist st = playlist_spec target songs /\
  subseq (accepted st) songs /\
  (target <= count st ->
   exists pre last post st1,
     songs = pre ++ last :: post /\
     filter_songs target pre = Ok st1 /\ count st1 < target /\
     forall post', filter_songs target (pre ++ last :: post') = Ok st) /\
  filter_songs 2 ten_songs = Ok first_two /\
  forall rest,
    filter_songs 2 (firstn 2 ten_songs ++ rest) = Ok first_two.
Proof.
  intros Ht H. split; [now apply refines_spec |]. split.
  - apply for_songs_run, run_accepted in H as [new [Hacc Hsub]].
    simpl in Hacc. now rewrite Hacc.
  - split; [now apply stops_at_target |]. split; reflexivity.
Qed.

Lemma first_seen_until_target_witness :
  1 <= 2 /\
  filter_songs 2 (firstn 2 ten_songs ++ [None_]) = Ok first_two /\
  filtered_playlist first_two
  = playlist_spec 2 (firstn 2 ten_songs ++ [None_]) /\
  filtered_playlist first_two
  = [mk_track "t1" "a1" "u1"; mk_track "t2" "a2" "u2"].
Proof.
  assert (H1 : 1 <= 2) by lia.
  assert (H2 : filter_songs 2 (firstn 2 ten_songs ++ [None_]) = Ok first_two)
    by reflexivity.
  exact (conj H1 (conj H2
           (conj (proj1 (first_seen_until_target _ _ _ H1 H2)) eq_refl))).
Defined.

(** The first value the query string gives for a name, if any. *)
Fixpoint supplied (args : query_args) (k : string) : option string :=
  match args with
  | [] => None
  | (k', v) :: args' => if String.eqb k k' then Some v else supplied args' k
  end.

Lemma args_get_supplied args k default :
  args_get args k default
  = match supplied args k with Some v => v | None => default end.
Proof.
  induction args as [| [k' v] args IH]; simpl; [reflexivity |].
  now destruct (String.eqb k k').
Qed.

(** A provider that knows one song, under the empty search term only. *)
Definition only_empty_term (url : string) (p : request_params) : upstream :=
  if String.eqb (q p) ""
  then Json (Dict [("data", List [mk_song 1 "t1" "a1" "u1"])])
  else RequestException.

(** C5, as stated, fails: for [/playlist?q=] the term searched is the empty
    string, not the default term. *)
Lemma empty_q_is_searched :
  supplied [("q", "")] "q" = Some "" /\
  q (search_params [("q", "")]) = "" /\
  q (search_params [("q", "")]) <> DEFAULT_QUERY /\
  get_playlist only_empty_term [("q", "")]
  = Ok (SongsBody [mk_track "t1" "a1" "u1"], 200).
Proof. repeat split. discriminate. Qed.

(** C5 (amended): the search term is the default term ["lofi"] when the
    query string gives no [q], and otherwise the first value it gives for
    [q], the empty string included; the provider is asked about that term
    and no other. *)
Theorem search_term_default_when_absent target requests_get args :
  DEFAULT_QUERY = "lofi" /\
  q (search_params args)
  = match supplied args "q" with Some v => v | None => DEFAULT_QUERY end /\
  get_playlist_with target requests_get args
  = get_playlist_with target
      (fun _ _ =>
         requests_get DEEZER_API_URL
           {| q := match supplied args "q" with
                   | Some v => v
                   | None => DEFAULT_QUERY
                   end;
              limit := 20 |})
      args.
Proof.
  split; [reflexivity |]. split.
  - unfold search_params. simpl. apply args_get_supplied.
  - unfold get_playlist_with, search_params. simpl.
    now rewrite args_get_supplied.
Qed.

(** C6: when the provider answered and [data] is a dict whose ["data"] item
    is a list of songs the loop reads without raising, the response is the
    404 "no songs" error exactly when no entry was accepted, and otherwise
    it is 200 with the accepted entries, however few. *)
Theorem not_found_iff_none_accepted target requests_get args data songs st :
  requests_get DEEZER_API_URL (search_params args) = Json data ->
  getitem data "data" = Ok (List songs) ->
  filter_songs target songs = Ok st ->
  let query := q (search_params args) in
  let r := get_playlist_with target requests_get args in
  (r = Ok (no_songs_found query) <-> filtered_playlist st = []) /\
  (filtered_playlist st <> [] -> r = Ok (SongsBody (filtered_playlist st), 200)) /\
  (exists message, no_songs_found query = (ErrorBody "No Songs Found" message, 404)).
Proof.
  intros Hup Hdata Hrun query r.
  assert (Hr : r = match filtered_playlist st with
                   | [] => Ok (no_songs_found query)
                   | _ => Ok (SongsBody (filtered_playlist st), 200)
                   end).
  { unfold r, get_playlist_with. rewrite Hup.
    destruct data as [| | | | | | d]; try discriminate.
    unfold data_missing. simpl in *.
    destruct (lookup d "data") as [v |]; [| discriminate].
    injection Hdata as ->. simpl.
    rewrite Hrun. reflexivity. }
  rewrite Hr. split; [| split].
  - destruct (filtered_playlist st); split; try discriminate; reflexivity.
  - destruct (filtered_playlist st); [now intros [] | reflexivity].
  - eexists. reflexivity.
Qed.

(** A provider that returns one song for every term. *)
Definition one_song (url : string) (p : request_params) : upstream :=
  Json (Dict [("data", List [mk_song 1 "t1" "a1" "u1"])]).

Lemma not_found_iff_none_accepted_witness :
  get_playlist one_song [] = Ok (SongsBody [mk_track "t1" "a1" "u1"], 200) /\
  (Z.of_nat (List.length [mk_track "t1" "a1" "u1"]) < TARGET_SONGS).
Proof.
  split; [| reflexivity].
  refine (proj1 (proj2
    (not_found_iff_none_accepted TARGET_SONGS one_song []
       (Dict [("data", List [mk_song 1 "t1" "a1" "u1"])])
       [mk_song 1 "t1" "a1" "u1"]
       {| filtered_playlist := [mk_track "t1" "a1" "u1"];
          seen_track_ids := [KInt 1];
          accepted := [mk_song 1 "t1" "a1" "u1"] |}
       eq_refl eq_refl eq_refl)) _).
  discriminate.
Defined.

(** A song given by its four fields, and one with no title and no artist. *)
Definition song_with (t a p i : value) : value :=
  Dict [("id", i); ("title", t); ("artist", Dict [("name", a)]); ("preview", p)].

Definition bare_song (p i : value) : value :=
  Dict [("id", i); ("preview", p)].

Lemma taken_whatever target st song e k :
  track_of song = Ok e -> truthy (preview_url e) = true ->
  track_key song = Ok k -> ~ In k (seen_track_ids st) ->
  exists fl, loop_body target st song = Ok (push st e k song, fl).
Proof.
  intros He Hp Hk Hin. destruct (Z_lt_le_dec (count st + 1) target).
  - exists Continue. apply loop_body_outcome. eapply taken; eauto.
  - exists Break. apply loop_body_outcome. eapply taken_last; eauto.
Qed.

(** C9: a song with a preview and an id not seen yet is accepted whatever
    its title and its artist's name are, [None] included, and also when it
    has neither; the entry carries them as they are, so that a playlist can
    hold an entry whose title and artist are both [None]. *)
Theorem title_and_artist_not_tested target st t a p i k :
  truthy p = true ->
  hash i = Ok k ->
  ~ In k (seen_track_ids st) ->
  (exists fl,
     loop_body target st (song_with t a p i)
     = Ok (push st {| title := t; artist := a; preview_url := p |} k
             (song_with t a p i), fl)) /\
  (exists fl,
     loop_body target st (bare_song p i)
     = Ok (push st {| title := None_; artist := None_; preview_url := p |} k
             (bare_song p i), fl)) /\
  (exists songs pl e,
     get_playlist (fun _ _ => Json (Dict [("data", List songs)])) []
     = Ok (SongsBody pl, 200) /\
     In e pl /\ title e = None_ /\ artist e = None_).
Proof.
  intros Hp Hi Hin. split; [| split].
  - apply taken_whatever; [reflexivity | exact Hp | exact Hi | exact Hin].
  - apply taken_whatever; [reflexivity | exact Hp | exact Hi | exact Hin].
  - exists [bare_song (Str "u1") (Int 1)]. eexists. eexists.
    split; [reflexivity |]. split; [left; reflexivity |].
    split; reflexivity.
Qed.

Lemma title_and_artist_not_tested_witness :
  exists fl,
    loop_body TARGET_SONGS initial_state
      (song_with None_ None_ (Str "u1") (Int 1))
    = Ok (push initial_state
            {| title := None_; artist := None_; preview_url := Str "u1" |}
            (KInt 1) (song_with None_ None_ (Str "u1") (Int 1)), fl).
Proof.
  refine (proj1 (title_and_artist_not_tested TARGET_SONGS initial_state
                   None_ None_ (Str "u1") (Int 1) (KInt 1)
                   eq_refl eq_refl _)).
  simpl. tauto.
Defined.

(** Two songs without an id that differ in everything else. *)
Definition two_without_id : list value :=
  [ Dict [("title", Str "t1"); ("artist", Dict [("name", Str "a1")]);
          ("preview", Str "u1")];
    Dict [("title", Str "t2"); ("artist", Dict [("name", Str "a2")]);
          ("preview", Str "u2")] ].

Definition first_without_id : loop_state :=
  {| filtered_playlist := [mk_track "t1" "a1" "u1"];
     seen_track_ids := [KNone];
     accepted := firstn 1 two_without_id |}.

(** C10: a song without an ["id"] item is recorded under the key of [None];
    once that key is in the set, a song without an id is passed over
    whatever its other fields are; hence at most one of the songs a
    playlist was built from has no id. *)
Theorem one_entry_without_id target songs st :
  filter_songs target songs = Ok st ->
  (forall song, lacks_id song = true -> track_key song = Ok KNone) /\
  (forall st0 song e,
     In KNone (seen_track_ids st0) ->
     lacks_id song = true -> track_of song = Ok e ->
     loop_body target st0 song = Ok (st0, Continue)) /\
  (List.length (filter lacks_id (accepted st)) <= 1)%nat.
Proof.
  intros H. split; [exact lacks_id_key |]. split.
  - intros st0 song e Hin Hl He. apply loop_body_outcome.
    destruct (truthy (preview_url e)) eqn:Hp.
    + eapply duplicate; eauto using lacks_id_key.
    + eapply no_preview; eauto.
  - destruct (filter_songs_consistent _ _ _ H) as [_ Hk Hd].
    exact (one_song_without_id _ _ Hk Hd).
Qed.

Lemma one_entry_without_id_witness :
  filter_songs TARGET_SONGS two_without_id = Ok first_without_id /\
  (List.length (filter lacks_id (accepted first_without_id)) <= 1)%nat.
Proof.
  assert (H : filter_songs TARGET_SONGS two_without_id = Ok first_without_id)
    by reflexivity.
  exact (conj H (proj2 (proj2 (one_entry_without_id _ _ _ H)))).
Defined.

End PlaylistSpec.

(** ** The mood service ([src/backend/main.py]) *)

Module Mood.
Import Py.

(** *** Floats *)

(** [a > b] on two floats: false as soon as one is NaN. *)
Definition float_gt (a b : spec_float) : bool := SFltb b a.

(** The integer nearest to [n / d] for [0 < d], a tie going to the even one. *)
Definition nearest_even (n d : Z) : Z :=
  let q := n / d in
  match 2 * (n mod d) ?= d with
  | Lt => q
  | Eq => if Z.even q then q else q + 1
  | Gt => q + 1
  end.

(** [round(x, 3)]: the multiple of 1/1000 nearest to the exact value of
    [x], ties to even, then the binary64 number nearest to that decimal.
    Infinities, NaN, zeros and integral values are returned as they are; a
    value that rounds to zero keeps its sign. *)
Definition round3 (x : spec_float) : spec_float :=
  match x with
  | S754_finite s m e =>
      if 0 <=? e then x
      else
        match nearest_even (Z.pos m * 1000) (2 ^ (- e)) with
        | Z.pos k =>
            SFdiv 53 1024 (S754_finite s k 0) (S754_finite false 1000 0)
        | _ => S754_zero s
        end
  | _ => x
  end.

(** *** Text *)

(** One of the dicts the classifier returns. *)
Record label_score : Type := {
  label : string;
  score : spec_float
}.

(** [max(result, key=lambda x: x['score'])]: the first item is the
    candidate, and a later item replaces it only when its key is greater. *)
Fixpoint max_from (best : label_score) (rest : list label_score) : label_score :=
  match rest with
  | [] => best
  | x :: rest' =>
      if float_gt (score x) (score best)
      then max_from x rest'
      else max_from best rest'
  end.

Definition max_by_score (result : list label_score) : Py.result label_score :=
  match result with
  | [] => Raise ValueError
  | x :: rest => Ok (max_from x rest)
  end.

Record mood_response : Type := {
  input_text : string;
  mood : string;
  confidence : spec_float
}.

(** The pipeline, called with [return_all_scores=True]: one list of
    label-score dicts for each input text, unless the call raises. *)
Definition classifier : Type := string -> Py.result (list (list label_score)).

(** Lines 31 to 37, and again lines 78 to 85: the first list the model
    returns, its top pair, the response. *)
Definition mood_of (emotion_model : classifier) (text : string)
  : Py.result mood_response :=
  results <- emotion_model text ;;
  match results with
  | [] => Raise IndexError
  | result :: _ =>
      top_emotion <- max_by_score result ;;
      Ok {| input_text := text;
            mood := label top_emotion;
            confidence := round3 (score top_emotion) |}
  end.

(** The request body of [/analyze-mood]. *)
Record MoodRequest : Type := { text : string }.

Definition analyze_mood (emotion_model : classifier) (req : MoodRequest)
  : Py.result mood_response :=
  mood_of emotion_model (text req).

(** Binary64 numbers written as decimals in the examples. *)
Definition f0_4 : spec_float := S754_finite false 7205759403792794 (-54).
Definition f0_6 : spec_float := S754_finite false 5404319552844595 (-53).

End Mood.

(** ** The order of floats *)

Module FloatOrder.
Import Mood.

Definition is_nan (f : spec_float) : bool :=
  match f with
  | S754_nan => true
  | _ => false
  end.

(** Where a float stands: by class first (negative infinity, negative,
    zero, positive, positive infinity), then by exponent, then by
    mantissa, both counted downwards for a negative number. *)
Definition rank (f : spec_float) : Z * Z * Z :=
  match f with
  | S754_infinity true => (-2, 0, 0)
  | S754_finite true m e => (-1, - e, - Z.pos m)
  | S754_zero _ => (0, 0, 0)
  | S754_nan => (0, 0, 0)
  | S754_finite false m e => (1, e, Z.pos m)
  | S754_infinity false => (2, 0, 0)
  end.

Definition lex_lt (a b : Z * Z * Z) : Prop :=
  let '(a1, a2, a3) := a in
  let '(b1, b2, b3) := b in
  a1 < b1 \/ (a1 = b1 /\ (a2 < b2 \/ (a2 = b2 /\ a3 < b3))).

Lemma SFltb_rank (a b : spec_float) :
  is_nan a = false -> is_nan b = false ->
  (SFltb a b = true <-> lex_lt (rank a) (rank b)).
Proof.
  unfold SFltb.
  destruct a as [[] | [] | | [] ma ea], b as [[] | [] | | [] mb eb];
    simpl; intros Ha Hb; try discriminate;
    try (split; [intros; lia | intros; reflexivity]);
    try (split; [discriminate | intros; lia]);
    change (Pos.compare_cont Eq ma mb) with (Pos.compare ma mb);
    destruct (Z.compare_spec ea eb);
    try (split; [intros; lia | intros; reflexivity]);
    try (split; [discriminate | intros; lia]);
    destruct (Pos.compare_spec ma mb); simpl;
    try (split; [intros; lia | intros; reflexivity]);
    try (split; [discriminate | intros; lia]).
Qed.

Lemma float_gt_rank (a b : spec_float) :
  is_nan a = false -> is_nan b = false ->
  (float_gt a b = true <-> lex_lt (rank b) (rank a)).
Proof. intros Ha Hb. unfold float_gt. now apply SFltb_rank. Qed.

Lemma lex_lt_asym a b : lex_lt a b -> lex_lt b a -> False.
Proof. destruct a as [[a1 a2] a3], b as [[b1 b2] b3]. simpl. lia. Qed.

Lemma lex_lt_cotrans a b c : lex_lt a b -> lex_lt a c \/ lex_lt c b.
Proof.
  destruct a as [[a1 a2] a3], b as [[b1 b2] b3], c as [[c1 c2] c3].
  simpl. lia.
Qed.

Lemma lex_lt_trans a b c : lex_lt a b -> lex_lt b c -> lex_lt a c.
Proof.
  destruct a as [[a1 a2] a3], b as [[b1 b2] b3], c as [[c1 c2] c3].
  simpl. lia.
Qed.

Lemma float_gt_trans (a b c : spec_float) :
  is_nan a = false -> is_nan b = false -> is_nan c = false ->
  float_gt a b = true -> float_gt b c = true -> float_gt a c = true.
Proof.
  intros Ha Hb Hc Hab Hbc.
  apply float_gt_rank in Hab; trivial. apply float_gt_rank in Hbc; trivial.
  apply float_gt_rank; trivial. eapply lex_lt_trans; eauto.
Qed.

Lemma float_gt_over (x b p : spec_float) :
  is_nan x = false -> is_nan b = false -> is_nan p = false ->
  float_gt x b = true -> float_gt p b = false -> float_gt x p = true.
Proof.
  intros Hx Hb Hp Hxb Hpb.
  apply float_gt_rank in Hxb; trivial. apply float_gt_rank; trivial.
  destruct (lex_lt_cotrans _ _ (rank p) Hxb) as [H | H]; [| assumption].
  apply float_gt_rank in H; trivial. congruence.
Qed.

Lemma float_gt_irrefl (a : spec_float) : float_gt a a = false.
Proof.
  destruct (float_gt a a) eqn:H; [| reflexivity].
  destruct (is_nan a) eqn:Ha.
  - destruct a; discriminate.
  - apply float_gt_rank in H; trivial. elim (lex_lt_asym _ _ H H).
Qed.

(** *** The maximum *)

Definition numeric (p : label_score) : Prop := is_nan (score p) = false.

(** [top] exceeds every item of [l]. *)
Definition above (top : label_score) (l : list label_score) : Prop :=
  Forall (fun p => float_gt (score top) (score p) = true) l.

(** No item of [l] exceeds [top]. *)
Definition not_below (top : label_score) (l : list label_score) : Prop :=
  Forall (fun p => float_gt (score p) (score top) = false) l.

Lemma max_from_split (rest : list label_score) :
  forall pre best mid,
    Forall numeric (pre ++ best :: mid ++ rest) ->
    above best pre -> not_below best mid ->
    exists before after,
      pre ++ best :: mid ++ rest = before ++ max_from best rest :: after /\
      above (max_from best rest) before /\
      not_below (max_from best rest) after.
Proof.
  induction rest as [| x rest IH]; intros pre best mid Hnum Hpre Hmid; simpl.
  - exists pre, mid. rewrite app_nil_r. auto.
  - assert (Hb : numeric best /\ numeric x /\
                 Forall numeric pre /\ Forall numeric mid).
    { rewrite Forall_app in Hnum. destruct Hnum as [H1 H2].
      inversion H2 as [| ? ? Hbest H3]; subst.
      rewrite Forall_app in H3. destruct H3 as [H4 H5].
      inversion H5; subst. auto. }
    destruct Hb as [Hbest [Hx [Hnpre Hnmid]]].
    destruct (float_gt (score x) (score best)) eqn:Hgt.
    + destruct (IH (pre ++ best :: mid) x []) as [before [after [Heq H]]].
      * simpl. now rewrite <- app_assoc.
      * unfold above in *. apply Forall_app. split; [| constructor].
        -- rewrite Forall_forall in *. intros p Hp.
           apply (float_gt_trans _ (score best)); auto.
           now apply Hnpre.
        -- assumption.
        -- unfold not_below in Hmid. rewrite Forall_forall in *.
           intros p Hp. apply (float_gt_over _ (score best)); auto.
           now apply Hnmid.
      * constructor.
      * exists before, after. split; [| assumption].
        rewrite <- Heq. simpl. now rewrite <- app_assoc.
    + destruct (IH pre best (mid ++ [x])) as [before [after [Heq H]]].
      * now rewrite <- app_assoc.
      * assumption.
      * unfold not_below in *. apply Forall_app. split; auto.
      * exists before, after. split; [| assumption].
        rewrite <- Heq. now rewrite <- app_assoc.
Qed.

End FloatOrder.

(** ** The audio upload ([analyze_audio]) *)

Module Audio.
Import Py Mood.

Definition bytes : Type := list Byte.byte.

Definition MAX_FILE_SIZE : Z := 10 * 1024 * 1024.

(** The argument of [file.read]. *)
Definition CHUNK_SIZE : nat := Z.to_nat 8192.

(** How the loop of lines 48 to 52 ends: by the [return] of line 51, or
    with the whole file in [contents].  [unread] is what the file holds
    after the position the reads have reached. *)
Inductive read_end : Type :=
| TooLarge (unread : bytes) (file_size : Z) (contents chunk : bytes)
| ReadAll (file_size : Z) (contents : bytes).

Lemma read_advances (size : nat) (unread : bytes) b chunk :
  firstn size unread = b :: chunk ->
  (List.length (skipn size unread) < List.length unread)%nat.
Proof.
  intros H. rewrite length_skipn.
  destruct size; [discriminate |]. destruct unread; [discriminate |].
  simpl. lia.
Qed.

(** A value together with the fact that it is what was computed. *)
Definition inspect {A : Type} (x : A) : {y : A | x = y} := exist _ x eq_refl.

(** [while chunk := await file.read(size)]: a read returns the next
    [size] bytes, fewer at the end of the file, none after it. *)
Equations read_chunks (size : nat) (cap : Z)
    (unread : bytes) (file_size : Z) (contents : bytes) : read_end
  by wf (List.length unread) lt :=
  read_chunks size cap unread file_size contents
    with inspect (firstn size unread) := {
    | exist _ [] _ => ReadAll file_size contents
    | exist _ (b :: chunk) Hread =>
        if file_size + Z.of_nat (List.length (b :: chunk)) >? cap
        then TooLarge (skipn size unread)
               (file_size + Z.of_nat (List.length (b :: chunk)))
               contents (b :: chunk)
        else read_chunks size cap (skipn size unread)
               (file_size + Z.of_nat (List.length (b :: chunk)))
               (contents ++ b :: chunk) }.
Next Obligation. eapply read_advances; eauto. Qed.

(** Lines 43 to 52. *)
Definition read_upload (file : bytes) : read_end :=
  read_chunks CHUNK_SIZE MAX_FILE_SIZE file 0 [].

(** *** The handler *)

Definition lower_char (c : ascii) : ascii :=
  let n := nat_of_ascii c in
  if (Nat.leb 65 n && Nat.leb n 90)%bool then ascii_of_nat (n + 32) else c.

Fixpoint lower (s : string) : string :=
  match s with
  | EmptyString => EmptyString
  | String c s' => String (lower_char c) (lower s')
  end.

Fixpoint endswith (s suffix : string) : bool :=
  String.eqb s suffix
  || match s with
     | EmptyString => false
     | String _ s' => endswith s' suffix
     end.

Definition allowed_format (name : string) : bool :=
  existsb (endswith (lower name)) [".wav"; ".mp3"; ".m4a"].

Record upload : Type := {
  filename : option string;
  stream : bytes
}.

(** What the [try] block gets from the recognizer. *)
Inductive transcription : Type :=
| Recognized (text : string)
| UnknownValueError
| RequestError
| Failed (e : exn).

Inductive audio_response : Type :=
| AudioError (error : string)
| AudioMood (r : mood_response).

Definition too_large : audio_response :=
  AudioError "File size too large. Maximum size is 10MB".

Definition analyze_audio (recognize : bytes -> transcription)
    (emotion_model : classifier) (file : upload) : result audio_response :=
  match read_upload (stream file) with
  | TooLarge _ _ _ _ => Ok too_large
  | ReadAll _ contents =>
      match filename file with
      | None => Raise AttributeError
      | Some name =>
          if negb (allowed_format name)
          then Ok (AudioError
                 "Unsupported file format. Please upload WAV, MP3, or M4A file")
          else
            match recognize contents with
            | Recognized text =>
                r <- mood_of emotion_model text ;;
                Ok (AudioMood r)
            | UnknownValueError => Ok (AudioError "Could not understand audio")
            | RequestError =>
                Ok (AudioError "Speech recognition service failed")
            | Failed e => Raise e
            end
      end
  end.

End Audio.

(** ** The reading loop *)

Module AudioFacts.
Import Audio.

Lemma read_chunks_unfold size cap unread fs contents :
  read_chunks size cap unread fs contents =
  match firstn size unread with
  | [] => ReadAll fs contents
  | b :: chunk =>
      if fs + Z.of_nat (List.length (b :: chunk)) >? cap
      then TooLarge (skipn size unread)
             (fs + Z.of_nat (List.length (b :: chunk))) contents (b :: chunk)
      else read_chunks size cap (skipn size unread)
             (fs + Z.of_nat (List.length (b :: chunk)))
             (contents ++ b :: chunk)
  end.
Proof.
  funelim (read_chunks size cap unread fs contents);
    match goal with H : firstn _ _ = _ |- _ => rewrite H end; reflexivity.
Qed.

(** What the loop guarantees when it starts with [file_size] the length of
    [contents], not above the cap: the bytes are those of the file in
    order, [contents] never outgrows the cap, and the chunk that made the
    count exceed it is the last one read. *)
Definition read_post (size : nat) (cap : Z) (unread contents : bytes)
    (r : read_end) : Prop :=
  match r with
  | TooLarge u fs c ch =>
      contents ++ unread = c ++ ch ++ u /\
      fs = Z.of_nat (List.length c) + Z.of_nat (List.length ch) /\
      Z.of_nat (List.length c) <= cap < fs /\
      ch = firstn size (ch ++ u) /\ ch <> []
  | ReadAll fs c =>
      c = contents ++ unread /\
      fs = Z.of_nat (List.length c) /\ fs <= cap
  end.

Lemma read_post_shift size cap unread contents chunk r :
  firstn size unread = chunk ->
  read_post size cap (skipn size unread) (contents ++ chunk) r ->
  read_post size cap unread contents r.
Proof.
  intros Hread. unfold read_post.
  rewrite <- app_assoc, <- Hread, firstn_skipn. trivial.
Qed.

Lemma read_chunks_post size cap unread :
  (0 < size)%nat ->
  forall fs contents,
    fs = Z.of_nat (List.length contents) -> fs <= cap ->
    read_post size cap unread contents
      (read_chunks size cap unread fs contents).
Proof.
  intros Hsize.
  induction unread as [unread IH] using (induction_ltof1 _ (@List.length _)).
  unfold ltof in IH. intros fs contents Hfs Hcap.
  rewrite read_chunks_unfold.
  destruct (firstn size unread) as [| b chunk] eqn:Hread.
  - assert (Hnil : unread = []).
    { destruct size; [lia |]. destruct unread; [reflexivity | discriminate]. }
    subst unread. simpl. rewrite app_nil_r. auto.
  - pose proof (firstn_skipn size unread) as Hsplit. rewrite Hread in Hsplit.
    destruct (fs + Z.of_nat (List.length (b :: chunk)) >? cap) eqn:Hover.
    + unfold read_post. repeat split; try lia.
      * now rewrite Hsplit.
      * now rewrite Hsplit.
      * discriminate.
    + apply (read_post_shift _ _ _ _ (b :: chunk) _ Hread).
      apply IH.
      * eapply read_advances; eauto.
      * rewrite length_app. lia.
      * lia.
Qed.

(** Every chunk but the last one read has the full size. *)
Definition whole_chunks (size : nat) (contents : bytes) (r : read_end) : Prop :=
  match r with
  | TooLarge _ _ c _ =>
      exists k, List.length c = (List.length contents + k * size)%nat
  | ReadAll _ _ => True
  end.

Lemma read_chunks_whole size cap unread :
  forall fs contents,
    whole_chunks size contents (read_chunks size cap unread fs contents).
Proof.
  induction unread as [unread IH] using (induction_ltof1 _ (@List.length _)).
  unfold ltof in IH. intros fs contents.
  rewrite read_chunks_unfold.
  destruct (firstn size unread) as [| b chunk] eqn:Hread; [exact I |].
  destruct (fs + Z.of_nat (List.length (b :: chunk)) >? cap).
  - exists 0%nat. simpl. lia.
  - destruct (le_lt_dec (List.length unread) size) as [Hshort | Hlong].
    + rewrite (skipn_all2 _ Hshort), read_chunks_unfold, firstn_nil.
      exact I.
    + assert (Hlen : List.length (b :: chunk) = size).
      { rewrite <- Hread. apply firstn_length_le. lia. }
      specialize (IH (skipn size unread) (read_advances _ _ _ _ Hread)
                    (fs + Z.of_nat (List.length (b :: chunk)))
                    (contents ++ b :: chunk)).
      destruct (read_chunks _ _ _ _ _); [| exact I].
      destruct IH as [k Hk]. exists (S k).
      rewrite Hk, length_app, Hlen. simpl. lia.
Qed.

(** The loop from the start of a file. *)
Lemma read_within_cap size cap (file : bytes) :
  (0 < size)%nat -> 0 <= cap ->
  Z.of_nat (List.length file) <= cap ->
  read_chunks size cap file 0 [] = ReadAll (Z.of_nat (List.length file)) file.
Proof.
  intros Hsize Hcap Hsmall.
  pose proof (read_chunks_post size cap file Hsize 0 [] eq_refl Hcap) as Hpost.
  destruct (read_chunks size cap file 0 []) as [u fs c ch | fs c];
    unfold read_post in Hpost.
  - destruct Hpost as [Hsplit [Hfs [Hc _]]].
    change ([] ++ file) with file in Hsplit.
    rewrite Hsplit, !length_app in Hsmall. lia.
  - destruct Hpost as [-> [-> _]]. reflexivity.
Qed.

Lemma read_over_cap size cap (file : bytes) :
  (0 < size)%nat -> 0 <= cap ->
  cap < Z.of_nat (List.length file) ->
  exists unread contents chunk,
    read_chunks size cap file 0 []
    = TooLarge unread
        (Z.of_nat (List.length contents) + Z.of_nat (List.length chunk))
        contents chunk /\
    file = contents ++ chunk ++ unread /\
    chunk = firstn size (chunk ++ unread) /\
    (0 < List.length chunk <= size)%nat /\
    (exists k, List.length contents = (k * size)%nat) /\
    Z.of_nat (List.length contents) <= cap /\
    cap < Z.of_nat (List.length contents) + Z.of_nat (List.length chunk).
Proof.
  intros Hsize Hcap Hbig.
  pose proof (read_chunks_post size cap file Hsize 0 [] eq_refl Hcap) as Hpost.
  pose proof (read_chunks_whole size cap file 0 []) as Hwhole.
  destruct (read_chunks size cap file 0 []) as [u fs c ch | fs c];
    unfold read_post in Hpost; unfold whole_chunks in Hwhole.
  - destruct Hpost as [Hsplit [-> [Hc [Hch Hne]]]].
    exists u, c, ch.
    split; [reflexivity |]. split; [exact Hsplit |]. split; [exact Hch |].
    split; [| split; [exact Hwhole | lia]].
    split.
    + destruct ch; [now elim Hne | simpl; lia].
    + rewrite Hch. apply firstn_le_length.
  - destruct Hpost as [-> [-> Hc]].
    change ([] ++ file) with file in Hc. lia.
Qed.

End AudioFacts.

(** ** Rounding to three decimals *)

Module Rounding.
Import Mood.

(** [k] is the integer nearest to [n / d]; of two equally near, the even
    one. *)
Definition nearest_integer (n d k : Z) : Prop :=
  2 * Z.abs (n - k * d) <= d /\
  (2 * Z.abs (n - k * d) = d -> Z.even k = true).

Lemma nearest_even_nearest (n d : Z) :
  0 < d -> nearest_integer n d (nearest_even n d).
Proof.
  intros Hd. unfold nearest_integer, nearest_even.
  pose proof (Z.div_mod n d ltac:(lia)) as Hdiv.
  pose proof (Z.mod_pos_bound n d Hd) as Hmod.
  destruct (Z.compare_spec (2 * (n mod d)) d) as [Heq | Hlt | Hgt].
  - destruct (Z.even (n / d)) eqn:Hev.
    + split; [nia | intros _; exact Hev].
    + split; [nia |]. intros _.
      rewrite Z.add_1_r, Z.even_succ, <- Z.negb_even, Hev. reflexivity.
  - split; nia.
  - split; nia.
Qed.

Lemma nearest_integer_unique (n d k1 k2 : Z) :
  0 < d -> nearest_integer n d k1 -> nearest_integer n d k2 -> k1 = k2.
Proof.
  intros Hd [H1 E1] [H2 E2].
  assert (Hnear : k1 = k2 \/ k1 = k2 + 1 \/ k2 = k1 + 1) by nia.
  destruct Hnear as [H | [H | H]]; [exact H | exfalso | exfalso].
  - assert (T1 : 2 * Z.abs (n - k1 * d) = d) by nia.
    assert (T2 : 2 * Z.abs (n - k2 * d) = d) by nia.
    specialize (E1 T1). specialize (E2 T2).
    rewrite H, Z.add_1_r, Z.even_succ, <- Z.negb_even, E2 in E1.
    discriminate.
  - assert (T1 : 2 * Z.abs (n - k1 * d) = d) by nia.
    assert (T2 : 2 * Z.abs (n - k2 * d) = d) by nia.
    specialize (E1 T1). specialize (E2 T2).
    rewrite H, Z.add_1_r, Z.even_succ, <- Z.negb_even, E1 in E2.
    discriminate.
Qed.

(** The binary64 quotient of [k] thousandths, with the sign [s]. *)
Definition thousandths (s : bool) (k : Z) : spec_float :=
  match k with
  | Z.pos p => SFdiv 53 1024 (S754_finite s p 0) (S754_finite false 1000 0)
  | _ => S754_zero s
  end.

(** [y] is [x] rounded to three decimal places: for a number with a
    fractional part, of value [m * 2 ^ e] up to the sign, [y] is [k]
    thousandths where [k] is the integer nearest to a thousand times that
    value, the even one at a tie; any other float is left as it is. *)
Definition rounded_to_3 (x y : spec_float) : Prop :=
  match x with
  | S754_finite s m e =>
      if 0 <=? e then y = x
      else exists k,
          0 <= k /\
          nearest_integer (Z.pos m * 1000) (2 ^ (- e)) k /\
          y = thousandths s k
  | _ => y = x
  end.

Lemma round3_rounded (x : spec_float) : rounded_to_3 x (round3 x).
Proof.
  destruct x as [s | s | | s m e]; simpl; try reflexivity.
  destruct (0 <=? e) eqn:He; [reflexivity |].
  assert (Hd : 0 < 2 ^ (- e)) by (apply Z.pow_pos_nonneg; lia).
  exists (nearest_even (Z.pos m * 1000) (2 ^ (- e))).
  split; [| split; [now apply nearest_even_nearest | reflexivity]].
  unfold nearest_even.
  assert (Hq : 0 <= Z.pos m * 1000 / 2 ^ (- e))
    by (apply Z.div_pos; lia).
  destruct (2 * ((Z.pos m * 1000) mod 2 ^ (- e)) ?= 2 ^ (- e));
    [destruct (Z.even _) | |]; lia.
Qed.

(** The relation leaves no choice. *)
Lemma rounded_to_3_unique (x y : spec_float) :
  rounded_to_3 x y -> y = round3 x.
Proof.
  intros H.
  destruct x as [s | s | | s m e]; unfold rounded_to_3 in H; try exact H.
  unfold round3. destruct (0 <=? e) eqn:He; [exact H |].
  assert (Hd : 0 < 2 ^ (- e)) by (apply Z.pow_pos_nonneg; lia).
  destruct H as [k1 [_ [H1 ->]]].
  change (thousandths s k1
          = thousandths s (nearest_even (Z.pos m * 1000) (2 ^ (- e)))).
  f_equal.
  apply (nearest_integer_unique (Z.pos m * 1000) (2 ^ (- e))); trivial.
  now apply nearest_even_nearest.
Qed.

(** Binary64 numbers of the examples: 0.0625 rounds to 0.062 (a tie, to
    the even thousandth), 0.9375 to 0.938, 0.9996 to 1.0, 0.0004 to 0.0. *)
Definition f0_0625 : spec_float := S754_finite false 4503599627370496 (-56).
Definition f0_062 : spec_float := S754_finite false 8935141660703064 (-57).
Definition f0_9375 : spec_float := S754_finite false 8444249301319680 (-53).
Definition f0_938 : spec_float := S754_finite false 8448752900947050 (-53).
Definition f0_9996 : spec_float := S754_finite false 9003596375039096 (-53).
Definition f1_0 : spec_float := S754_finite false 4503599627370496 (-52).
Definition f0_0004 : spec_float := S754_finite false 7378697629483821 (-64).

Example round3_changes_the_value :
  round3 f0_0625 = f0_062 /\ round3 f0_9375 = f0_938 /\
  round3 f0_9996 = f1_0 /\ round3 f0_0004 = S754_zero false /\
  round3 f0_6 = f0_6.
Proof. repeat split; vm_compute; reflexivity. Qed.

End Rounding.

(** ** The mood service: properties *)

Module MoodSpec.
Import Mood FloatOrder Rounding.

(** The scores of the specification's example. *)
Definition joy_sadness : list label_score :=
  [ {| label := "joy"; score := f0_4 |};
    {| label := "sadness"; score := f0_6 |} ].

(** Scores that rounding changes: 0.0625 and 0.9375. *)
Definition joy_sadness_fine : list label_score :=
  [ {| label := "joy"; score := f0_0625 |};
    {| label := "sadness"; score := f0_9375 |} ].

(** With a NaN among the scores there need be no maximum to select: no
    comparison with it succeeds. *)
Example nan_is_kept :
  max_by_score [ {| label := "joy"; score := S754_nan |};
                 {| label := "sadness"; score := f0_6 |} ]
  = Py.Ok {| label := "joy"; score := S754_nan |}.
Proof. reflexivity. Qed.

(** C7: for a non-empty list of label-score pairs, none of them NaN, the
    handler answers with the label of a pair [top] and, as confidence, its
    score rounded to three decimal places (the nearest thousandth, the even
    one at a tie), where no pair of the list has a greater score than
    [top] and every pair before [top] has a smaller one, [top] being so the
    first pair with the greatest score. *)
Theorem top_score_selected emotion_model req result others :
  emotion_model (text req) = Py.Ok (result :: others) ->
  result <> [] ->
  Forall numeric result ->
  exists before top after rounded,
    result = before ++ top :: after /\
    above top before /\
    not_below top result /\
    rounded_to_3 (score top) rounded /\
    analyze_mood emotion_model req
    = Py.Ok {| input_text := text req;
               mood := label top;
               confidence := rounded |}.
Proof.
  intros Hmodel Hne Hnum.
  destruct result as [| first rest]; [now elim Hne |].
  destruct (max_from_split rest [] first [] Hnum (Forall_nil _) (Forall_nil _))
    as [before [after [Heq [Ha Hb]]]].
  simpl in Heq.
  exists before, (max_from first rest), after,
    (round3 (score (max_from first rest))).
  split; [exact Heq |]. split; [exact Ha |]. split; [| split].
  - rewrite Heq. unfold not_below. apply Forall_app. split.
    + unfold above in Ha. rewrite Forall_forall in *. intros p Hp.
      specialize (Ha p Hp).
      destruct (float_gt (score p) (score (max_from first rest))) eqn:Hgt;
        [| reflexivity].
      assert (Hin : forall x, In x (before ++ max_from first rest :: after) ->
                              numeric x).
      { rewrite <- Heq. exact Hnum. }
      assert (Hp' : numeric p).
      { apply Hin, in_or_app. now left. }
      assert (Ht : numeric (max_from first rest)).
      { apply Hin, in_or_app. right. now left. }
      apply float_gt_rank in Ha; trivial. apply float_gt_rank in Hgt; trivial.
      elim (lex_lt_asym _ _ Ha Hgt).
    + constructor; [apply float_gt_irrefl | exact Hb].
  - apply round3_rounded.
  - unfold analyze_mood, mood_of. rewrite Hmodel. reflexivity.
Qed.

Lemma top_score_selected_witness :
  Forall numeric joy_sadness_fine /\
  analyze_mood (fun _ => Py.Ok [joy_sadness_fine]) {| text := "so blue" |}
  = Py.Ok {| input_text := "so blue"; mood := "sadness";
             confidence := f0_938 |} /\
  analyze_mood (fun _ => Py.Ok [joy_sadness]) {| text := "so blue" |}
  = Py.Ok {| input_text := "so blue"; mood := "sadness";
             confidence := f0_6 |} /\
  exists before top after rounded,
    joy_sadness_fine = before ++ top :: after /\
    above top before /\
    not_below top joy_sadness_fine /\
    rounded_to_3 (score top) rounded /\
    analyze_mood (fun _ => Py.Ok [joy_sadness_fine]) {| text := "so blue" |}
    = Py.Ok {| input_text := "so blue";
               mood := label top;
               confidence := rounded |}.
Proof.
  assert (Hnum : Forall numeric joy_sadness_fine)
    by (repeat constructor).
  split; [exact Hnum |].
  split; [vm_compute; reflexivity |]. split; [vm_compute; reflexivity |].
  apply (top_score_selected (fun _ => Py.Ok [joy_sadness_fine])
           {| text := "so blue" |} joy_sadness_fine []);
    [reflexivity | discriminate | exact Hnum].
Defined.

End MoodSpec.

(** ** The audio upload: properties *)

Module AudioSpec.
Import Mood Audio AudioFacts.

Lemma chunk_size_positive : (0 < CHUNK_SIZE)%nat.
Proof. unfold CHUNK_SIZE. lia. Qed.

Lemma chunk_size_bytes : Z.of_nat CHUNK_SIZE = 8192.
Proof. unfold CHUNK_SIZE. lia. Qed.

Lemma cap_not_negative : 0 <= MAX_FILE_SIZE.
Proof. unfold MAX_FILE_SIZE. lia. Qed.

(** An upload within the cap is read to its end, into [contents]. *)
Lemma small_upload_read (file : bytes) :
  Z.of_nat (List.length file) <= MAX_FILE_SIZE ->
  read_upload file = ReadAll (Z.of_nat (List.length file)) file.
Proof.
  apply read_within_cap; [exact chunk_size_positive | exact cap_not_negative].
Qed.

(** C8: an upload of more than 10 MiB is answered with the error payload.
    When the handler returns, [contents] is a whole number of 8192-byte
    chunks and holds no more than the cap; the chunk just read, of at most
    8192 bytes, is the one that took the count over the cap; what follows
    it in the file is still unread.  So no more than the cap and one chunk
    were ever held. *)
Theorem oversized_upload_rejected recognize emotion_model file :
  MAX_FILE_SIZE < Z.of_nat (List.length (stream file)) ->
  exists unread contents chunk,
    read_upload (stream file)
    = TooLarge unread
        (Z.of_nat (List.length contents) + Z.of_nat (List.length chunk))
        contents chunk /\
    stream file = contents ++ chunk ++ unread /\
    chunk = firstn CHUNK_SIZE (chunk ++ unread) /\
    (0 < List.length chunk <= CHUNK_SIZE)%nat /\
    (exists k, List.length contents = (k * CHUNK_SIZE)%nat) /\
    Z.of_nat (List.length contents) <= MAX_FILE_SIZE /\
    MAX_FILE_SIZE
    < Z.of_nat (List.length contents) + Z.of_nat (List.length chunk)
    <= MAX_FILE_SIZE + 8192 /\
    analyze_audio recognize emotion_model file = Py.Ok too_large.
Proof.
  intros Hbig. unfold analyze_audio, read_upload.
  destruct (read_over_cap CHUNK_SIZE MAX_FILE_SIZE (stream file)
              chunk_size_positive cap_not_negative Hbig)
    as [u [c [ch [Hread [Hsplit [Hch [Hlen [Hwhole [Hc Hover]]]]]]]]].
  exists u, c, ch. rewrite Hread.
  pose proof chunk_size_bytes as Hsize.
  split; [reflexivity |]. split; [exact Hsplit |]. split; [exact Hch |].
  split; [exact Hlen |]. split; [exact Hwhole |]. split; [exact Hc |].
  split; [lia | reflexivity].
Qed.

(** One byte more than the cap allows. *)
Definition big_upload : upload :=
  {| filename := Some "voice.wav";
     stream := repeat Byte.x00 (Z.to_nat (MAX_FILE_SIZE + 1)) |}.

Lemma oversized_upload_rejected_witness :
  MAX_FILE_SIZE < Z.of_nat (List.length (stream big_upload)) /\
  analyze_audio (fun _ => Recognized "hello") (fun _ => Py.Ok []) big_upload
  = Py.Ok too_large.
Proof.
  assert (H : MAX_FILE_SIZE < Z.of_nat (List.length (stream big_upload))).
  { cbv [big_upload stream]. rewrite repeat_length.
    unfold MAX_FILE_SIZE. lia. }
  split; [exact H |].
  destruct (oversized_upload_rejected
              (fun _ => Recognized "hello") (fun _ => Py.Ok []) big_upload H)
    as [u [c [ch Hr]]].
  apply Hr.
Defined.

End AudioSpec.

(** ** The filtering loop: exceptions *)

Module LoopSafety.
Import Py PyFacts Playlist LoopFacts.

(** A field of a song, [default] when the song has no such item. *)
Definition field (song : value) (k : string) (default : value) : value :=
  match song with
  | Dict d => match lookup d k with Some v => v | None => default end
  | _ => default
  end.

(** A dict whose ["artist"] item, when there is one, is a dict: the shape
    lines 73 to 76 need. *)
Definition well_shaped (song : value) : bool :=
  match song with
  | Dict d =>
      match lookup d "artist" with
      | Some (Dict _) | None => true
      | Some _ => false
      end
  | _ => false
  end.

Definition unhashable (v : value) : bool :=
  match v with
  | List _ | Dict _ => true
  | _ => false
  end.

(** A song the iteration reads without raising. *)
Definition safe (song : value) : bool :=
  well_shaped song
  && (negb (truthy (field song "preview" None_))
      || negb (unhashable (field song "id" None_))).

Lemma track_of_shaped song :
  well_shaped song = true ->
  exists e, track_of song = Ok e /\
            preview_url e = field song "preview" None_.
Proof.
  unfold well_shaped, track_of, field.
  destruct song as [| | | | | | d]; try discriminate. simpl.
  destruct (lookup d "artist") as [[| | | | | | a] |]; try discriminate;
    intros _; simpl; eauto.
Qed.

Lemma track_of_unshaped song :
  well_shaped song = false -> track_of song = Raise AttributeError.
Proof.
  unfold well_shaped, track_of.
  destruct song as [| | | | | | d]; try reflexivity. simpl.
  destruct (lookup d "artist") as [[| | | | | | a] |]; try discriminate;
    reflexivity.
Qed.

Lemma track_key_shaped song :
  well_shaped song = true ->
  track_key song = hash (field song "id" None_).
Proof.
  unfold well_shaped, track_key, track_id_of, field.
  destruct song as [| | | | | | d]; try discriminate. reflexivity.
Qed.

Lemma hash_raises v :
  hash v = (if unhashable v then Raise TypeError else hash v).
Proof. destruct v; reflexivity. Qed.

Lemma hash_ok v : unhashable v = false -> exists k, hash v = Ok k.
Proof. destruct v; try discriminate; simpl; eauto. Qed.

(** X1: an iteration raises [AttributeError] exactly when the song is not a
    dict or its ["artist"] item is not a dict, and [TypeError] exactly when
    the song has that shape, a preview, and a list or a dict for id; it
    raises nothing else, and nothing in any other case. *)
Theorem loop_body_raises target st song e :
  loop_body target st song = Raise e <->
  (well_shaped song = false /\ e = AttributeError) \/
  (well_shaped song = true /\
   truthy (field song "preview" None_) = true /\
   unhashable (field song "id" None_) = true /\ e = TypeError).
Proof.
  rewrite loop_body_unfold.
  destruct (well_shaped song) eqn:Hs.
  - destruct (track_of_shaped _ Hs) as [x [-> Hp]]. simpl.
    rewrite Hp, (track_key_shaped _ Hs), hash_raises.
    destruct (truthy (field song "preview" None_)).
    + destruct (unhashable (field song "id" None_)) eqn:Hu; simpl.
      * split; [intros [= <-]; right; auto |].
        intros [[[=] _] | [_ [_ [_ ->]]]]. reflexivity.
      * destruct (hash_ok _ Hu) as [k ->]. simpl.
        split; [| intros [[[=] _] | [_ [_ [[=] _]]]]].
        destruct (set_mem k (seen_track_ids st)); [discriminate |].
        destruct (_ >=? _); discriminate.
    + split; [discriminate | intros [[[=] _] | [_ [[=] _]]]].
  - rewrite (track_of_unshaped _ Hs). simpl.
    split; [intros [= <-]; left; auto |].
    intros [[_ ->] | [[=] _]]. reflexivity.
Qed.

Lemma loop_body_safe target st song :
  safe song = true -> exists r, loop_body target st song = Ok r.
Proof.
  intros Hsafe. destruct (loop_body target st song) as [r | e] eqn:Hb;
    [eauto |].
  apply loop_body_raises in Hb. unfold safe in Hsafe.
  apply andb_true_iff in Hsafe as [Hs Hrest].
  destruct Hb as [[Hb _] | [_ [Hp [Hu _]]]]; [congruence |].
  rewrite Hp, Hu in Hrest. discriminate.
Qed.

Lemma for_songs_raises target songs :
  forall st e, for_songs target st songs = Raise e ->
  e = AttributeError \/ e = TypeError.
Proof.
  induction songs as [| song rest IH]; intros st e; simpl; [discriminate |].
  destruct (loop_body target st song) as [[st1 []] | e'] eqn:Hb.
  - apply IH.
  - discriminate.
  - intros [= <-]. apply loop_body_raises in Hb.
    destruct Hb as [[_ ->] | [_ [_ [_ ->]]]]; auto.
Qed.

(** Songs of the shape the provider documents: a dict, with a dict for
    artist and a number or a string for id. *)
Definition provider_song (id : value) (t a p : value) : value :=
  Dict [("id", id); ("title", t); ("artist", Dict [("name", a)]);
        ("preview", p)].

(** X2: the loop raises nothing when every song is safe to read: a dict,
    its artist (if any) a dict, and its id hashable unless it has no
    preview. *)
Theorem safe_songs_filtered target songs :
  Forall (fun song => safe song = true) songs ->
  exists st, filter_songs target songs = Ok st.
Proof.
  unfold filter_songs. generalize initial_state.
  induction songs as [| song rest IH]; intros st Hall; simpl; [eauto |].
  inversion Hall as [| ? ? Hsong Hrest]; subst.
  destruct (loop_body_safe target st song Hsong) as [[st1 []] ->]; eauto.
Qed.

Lemma safe_songs_filtered_witness :
  Forall (fun song => safe song = true)
    [ provider_song (Int 1) (Str "t1") (Str "a1") None_;
      provider_song (List []) None_ None_ (Str "");
      Dict [("preview", Str "u3")] ] /\
  exists st,
    filter_songs TARGET_SONGS
      [ provider_song (Int 1) (Str "t1") (Str "a1") None_;
        provider_song (List []) None_ None_ (Str "");
        Dict [("preview", Str "u3")] ] = Ok st.
Proof.
  assert (H : Forall (fun song => safe song = true)
    [ provider_song (Int 1) (Str "t1") (Str "a1") None_;
      provider_song (List []) None_ None_ (Str "");
      Dict [("preview", Str "u3")] ]) by (repeat constructor).
  exact (conj H (safe_songs_filtered TARGET_SONGS _ H)).
Defined.

End LoopSafety.

(** ** The filtering loop: how runs compose *)

Module LoopAlgebra.
Import Py PyFacts Playlist LoopFacts LoopSafety.

Lemma outcome_grows target st song st' fl :
  outcome target st song st' fl ->
  exists more, filtered_playlist st' = filtered_playlist st ++ more.
Proof.
  intros Ho. destruct Ho; simpl;
    try (exists []; now rewrite app_nil_r); eauto.
Qed.

Lemma run_grows target st songs st' :
  run target st songs st' ->
  exists more, filtered_playlist st' = filtered_playlist st ++ more.
Proof.
  induction 1 as [st | st song rest st' Ho | st song rest st1 st' Ho Hr IH].
  - exists []. now rewrite app_nil_r.
  - eapply outcome_grows; eauto.
  - destruct (outcome_grows _ _ _ _ _ Ho) as [m1 H1].
    destruct IH as [m2 H2]. exists (m1 ++ m2).
    now rewrite H2, H1, app_assoc.
Qed.

Lemma for_songs_prefix target pre post :
  forall st st2,
    for_songs target st (pre ++ post) = Ok st2 ->
    exists st1 more,
      for_songs target st pre = Ok st1 /\
      filtered_playlist st2 = filtered_playlist st1 ++ more.
Proof.
  induction pre as [| song pre IH]; intros st st2; simpl.
  - intros H. exists st. apply for_songs_run, run_grows in H as [more H].
    eauto.
  - destruct (loop_body target st song) as [[st1 []] |]; try discriminate.
    + apply IH.
    + intros [= <-]. exists st1, []. now rewrite app_nil_r.
Qed.

(** X3: if the songs are filtered without an exception, so is every prefix
    of them, and the playlist of the prefix is the beginning of the
    playlist of the whole: more input only ever appends entries. *)
Theorem playlist_of_prefix target pre post st2 :
  filter_songs target (pre ++ post) = Ok st2 ->
  exists st1 more,
    filter_songs target pre = Ok st1 /\
    filtered_playlist st2 = filtered_playlist st1 ++ more.
Proof. apply for_songs_prefix. Qed.

Lemma playlist_of_prefix_witness :
  filter_songs TARGET_SONGS
    ([mk_song 1 "t1" "a1" "u1"] ++ [mk_song 2 "t2" "a2" "u2"])
  = Ok {| filtered_playlist :=
            [mk_track "t1" "a1" "u1"; mk_track "t2" "a2" "u2"];
          seen_track_ids := [KInt 1; KInt 2];
          accepted := [mk_song 1 "t1" "a1" "u1"; mk_song 2 "t2" "a2" "u2"] |} /\
  exists st1 more,
    filter_songs TARGET_SONGS [mk_song 1 "t1" "a1" "u1"] = Ok st1 /\
    [mk_track "t1" "a1" "u1"; mk_track "t2" "a2" "u2"]
    = filtered_playlist st1 ++ more.
Proof.
  split; [reflexivity |].
  exact (playlist_of_prefix TARGET_SONGS
           [mk_song 1 "t1" "a1" "u1"] [mk_song 2 "t2" "a2" "u2"] _ eq_refl).
Defined.




(** Reading songs that are all taken, from a state they extend. *)
Lemma for_songs_all_taken target acc :
  forall pl seen st,
    Forall2 built_from acc pl ->
    Forall2 keyed_by acc seen ->
    NoDup (seen_track_ids st ++ seen) ->
    count st + Z.of_nat (List.length acc) <= Z.max 1 target ->
    for_songs target st acc
    = Ok {| filtered_playlist := filtered_playlist st ++ pl;
            seen_track_ids := seen_track_ids st ++ seen;
            accepted := accepted st ++ acc |}.
Proof.
  induction acc as [| song acc IH]; intros pl seen st Hb Hk Hd Hc.
  - inversion Hb; inversion Hk; subst. simpl. rewrite !app_nil_r.
    now destruct st.
  - inversion Hb as [| ? e ? pl' [He Hp] Hb']; subst.
    inversion Hk as [| ? k ? seen' Hkey Hk']; subst.
    assert (Hin : ~ In k (seen_track_ids st)).
    { apply NoDup_remove_2 in Hd. intros H. apply Hd, in_or_app. now left. }
    simpl in Hc |- *.
    destruct (Z_lt_le_dec (count st + 1) target) as [Hlt | Hge].
    + assert (Ho : loop_body target st song = Ok (push st e k song, Continue)).
      { apply loop_body_outcome. apply taken; assumption. }
      rewrite Ho, (IH pl' seen' (push st e k song) Hb' Hk').
      * simpl. now rewrite <- !app_assoc.
      * simpl. now rewrite <- app_assoc.
      * rewrite count_push. lia.
    + assert (Ho : loop_body target st song = Ok (push st e k song, Break)).
      { apply loop_body_outcome. apply taken_last; assumption. }
      rewrite Ho.
      assert (Hnil : acc = []).
      { destruct acc; [reflexivity |]. simpl in Hc. unfold count in *. lia. }
      subst acc. inversion Hb'; inversion Hk'; subst. reflexivity.
Qed.

(** X5: filtering is idempotent: the songs a playlist was built from,
    filtered again with the same target, give the same playlist, the same
    set of ids and the same songs. *)
Theorem filter_accepted_again target songs st :
  filter_songs target songs = Ok st ->
  filter_songs target (accepted st) = Ok st.
Proof.
  intros H. pose proof (filter_songs_consistent _ _ _ H) as [Hb Hk Hd].
  apply for_songs_run in H. apply run_count in H;
    [| unfold count; simpl; lia].
  unfold filter_songs.
  rewrite (for_songs_all_taken target (accepted st)
             (filtered_playlist st) (seen_track_ids st) initial_state Hb Hk).
  - simpl. now destruct st.
  - exact Hd.
  - rewrite (Forall2_length Hb). unfold count in *. simpl. lia.
Qed.

Lemma filter_accepted_again_witness :
  filter_songs TARGET_SONGS PlaylistSpec.example_songs
  = Ok PlaylistSpec.example_state /\
  filter_songs TARGET_SONGS (accepted PlaylistSpec.example_state)
  = Ok PlaylistSpec.example_state.
Proof.
  assert (H : filter_songs TARGET_SONGS PlaylistSpec.example_songs
              = Ok PlaylistSpec.example_state) by reflexivity.
  exact (conj H (filter_accepted_again _ _ _ H)).
Defined.

(** When the loop was not left early, the set holds the id of every
    qualifying song read. *)
Lemma run_tracks target st songs st' :
  run target st songs st' -> count st' < target ->
  forall earlier, tracks (seen_track_ids st) earlier ->
  tracks (seen_track_ids st') (earlier ++ songs).
Proof.
  induction 1 as [st | st song rest st' Ho | st song rest st1 st' Ho Hr IH];
    intros Hlt earlier Ht.
  - now rewrite app_nil_r.
  - apply outcome_count in Ho as [[_ [=]] | [_ [[[=] _] | [_ Hge]]]]. lia.
  - replace (earlier ++ song :: rest) with ((earlier ++ [song]) ++ rest)
      by now rewrite <- app_assoc.
    apply IH; [assumption |].
    inversion Ho as [e He Hp | e k He Hp Hk Hin | e k He Hp Hk Hin Hc |];
      subst.
    + apply tracks_skip; [assumption |].
      unfold candidate. rewrite He, Hp. now destruct (track_key song).
    + apply (tracks_duplicate _ _ _ k e); try assumption.
      unfold candidate. now rewrite He, Hk, Hp.
    + apply (tracks_taken _ _ _ k e); [assumption |].
      unfold candidate. now rewrite He, Hk, Hp.
Qed.

(** X6: when the playlist ends up shorter than the target, nothing was cut
    off: the playlist is every kept song of the input (each song with a
    preview whose id no earlier such song has), and the id of every song
    with a preview is in [seen_track_ids]. *)
Theorem short_playlist_is_complete target songs st :
  filter_songs target songs = Ok st ->
  count st < target ->
  filtered_playlist st = keep_first [] songs /\
  forall song k e,
    In song songs -> candidate song = Some (k, e) ->
    In k (seen_track_ids st).
Proof.
  intros H Hlt. apply for_songs_run in H. split.
  - pose proof (run_keep_first _ _ _ _ H []) as Hk. simpl in Hk.
    assert (Hpl : filtered_playlist st
                  = firstn (Z.to_nat target) (keep_first [] songs)).
    { rewrite Hk.
      - unfold count. simpl. now rewrite Z.sub_0_r.
      - intros k. simpl. split; [intros [] | discriminate].
      - unfold count in *. simpl. pose proof (Zle_0_nat
          (List.length (filtered_playlist st))). lia. }
    rewrite Hpl. apply firstn_all2.
    destruct (le_lt_dec (List.length (keep_first [] songs)) (Z.to_nat target))
      as [Hle | Hgt]; [exact Hle |].
    assert (Hlen : List.length (filtered_playlist st) = Z.to_nat target).
    { rewrite Hpl. apply firstn_length_le. lia. }
    unfold count in Hlt. lia.
  - intros song k e Hin Hc.
    pose proof (run_tracks _ _ _ _ H Hlt []) as Ht. simpl in Ht.
    apply Ht; [intros k'; simpl; split; [intros [] | discriminate] |].
    apply existsb_exists. exists song. split; [assumption |].
    unfold has_key. rewrite Hc. apply key_eqb_refl.
Qed.

Lemma short_playlist_is_complete_witness :
  filter_songs TARGET_SONGS PlaylistSpec.example_songs
  = Ok PlaylistSpec.example_state /\
  count PlaylistSpec.example_state < TARGET_SONGS /\
  filtered_playlist PlaylistSpec.example_state
  = keep_first [] PlaylistSpec.example_songs.
Proof.
  assert (H : filter_songs TARGET_SONGS PlaylistSpec.example_songs
              = Ok PlaylistSpec.example_state) by reflexivity.
  assert (Hc : count PlaylistSpec.example_state < TARGET_SONGS)
    by reflexivity.
  exact (conj H (conj Hc
           (proj1 (short_playlist_is_complete _ _ _ H Hc)))).
Defined.

End LoopAlgebra.

(** ** The playlist handler: its responses *)

Module HandlerFacts.
Import Py PyFacts Playlist LoopFacts LoopSafety.

Lemma data_missing_dict d :
  data_missing (Dict d)
  = Ok (match lookup d "data" with
        | Some (List _) => false
        | _ => true
        end).
Proof.
  unfold data_missing. simpl.
  destruct (lookup d "data") as [v |]; simpl; [| reflexivity].
  now destruct v.
Qed.

Lemma data_missing_raises data e :
  data_missing data = Raise e -> e = TypeError.
Proof.
  unfold data_missing.
  destruct data as [| | | | s | l | d]; simpl; try (now intros [= <-]).
  - destruct (has_substring "data" s); simpl; [now intros [= <-] | discriminate].
  - destruct (existsb (is_str "data") l); simpl;
      [now intros [= <-] | discriminate].
  - destruct (lookup d "data"); simpl; discriminate.
Qed.

Lemma data_present data :
  data_missing data = Ok false ->
  exists songs, getitem data "data" = Ok (List songs).
Proof.
  unfold data_missing.
  destruct data as [| | | | s | l | d]; simpl; try discriminate.
  - destruct (has_substring "data" s); simpl; discriminate.
  - destruct (existsb (is_str "data") l); simpl; discriminate.
  - destruct (lookup d "data") as [v |]; simpl; [| discriminate].
    destruct v; simpl; try discriminate. eauto.
Qed.

(** Every way the handler ends. *)
Inductive ending (target : Z) (query : string) (up : upstream)
  : result response -> Prop :=
| end_unavailable :
    up = RequestException ->
    ending target query up (Ok upstream_failure)
| end_escaped e :
    up = Escaped e ->
    ending target query up (Raise e)
| end_type_error data :
    up = Json data -> data_missing data = Raise TypeError ->
    ending target query up (Raise TypeError)
| end_malformed data :
    up = Json data -> data_missing data = Ok true ->
    ending target query up (Ok (malformed_response query))
| end_raised data songs e :
    up = Json data -> getitem data "data" = Ok (List songs) ->
    filter_songs target songs = Raise e ->
    ending target query up (Raise e)
| end_none data songs st :
    up = Json data -> getitem data "data" = Ok (List songs) ->
    filter_songs target songs = Ok st -> filtered_playlist st = [] ->
    ending target query up (Ok (no_songs_found query))
| end_songs data songs st :
    up = Json data -> getitem data "data" = Ok (List songs) ->
    filter_songs target songs = Ok st -> filtered_playlist st <> [] ->
    ending target query up (Ok (SongsBody (filtered_playlist st), 200)).

Lemma get_playlist_ending target requests_get args :
  ending target (q (search_params args))
    (requests_get DEEZER_API_URL (search_params args))
    (get_playlist_with target requests_get args).
Proof.
  unfold get_playlist_with.
  destruct (requests_get DEEZER_API_URL (search_params args)) as [| data | e]
    eqn:Hup; [now apply end_unavailable | | now apply end_escaped].
  destruct (data_missing data) as [[] | e] eqn:Hm; simpl.
  - now apply (end_malformed _ _ _ data).
  - destruct (data_present _ Hm) as [songs Hsongs]. rewrite Hsongs. simpl.
    destruct (filter_songs target songs) as [st | e] eqn:Hf; simpl.
    + destruct (filtered_playlist st) as [| x pl] eqn:Hpl.
      * now apply (end_none _ _ _ data songs st).
      * rewrite <- Hpl. apply (end_songs _ _ _ data songs st); trivial.
        now rewrite Hpl.
    + now apply (end_raised _ _ _ data songs).
  - pose proof (data_missing_raises _ _ Hm) as ->.
    now apply (end_type_error _ _ _ data).
Qed.

Lemma previews_truthy acc pl :
  Forall2 built_from acc pl ->
  Forall (fun e => truthy (preview_url e) = true) pl.
Proof.
  induction 1 as [| song e acc pl [_ Hp] _ IH]; constructor; assumption.
Qed.

(** X7: whenever the handler answers, the status is 503, 404 or 200: 503
    with the "External API Error" body, 404 with a "No Songs Found" body,
    and 200 with a list of songs that is not empty. *)
Theorem response_contract target requests_get args b code :
  get_playlist_with target requests_get args = Ok (b, code) ->
  (code = 503 /\
   b = ErrorBody "External API Error"
         "Could not connect to or retrieve data from the Deezer API.") \/
  (code = 404 /\ exists message, b = ErrorBody "No Songs Found" message) \/
  (code = 200 /\ exists songs, b = SongsBody songs /\ songs <> []).
Proof.
  intros H. pose proof (get_playlist_ending target requests_get args) as He.
  rewrite H in He. remember (Ok (b, code)) as r eqn:Hr.
  destruct He as [Hup | e Hup | data Hup Hm | data Hup Hm
                 | data songs e Hup Hd Hf
                 | data songs st Hup Hd Hf Hpl | data songs st Hup Hd Hf Hpl];
    try discriminate; injection Hr as <- <-.
  - left. auto.
  - right. left. eauto.
  - right. left. eauto.
  - right. right. eauto.
Qed.

Lemma response_contract_witness :
  get_playlist PlaylistSpec.one_song []
  = Ok (SongsBody [mk_track "t1" "a1" "u1"], 200) /\
  ((200 = 503 /\
    SongsBody [mk_track "t1" "a1" "u1"]
    = ErrorBody "External API Error"
        "Could not connect to or retrieve data from the Deezer API.") \/
   (200 = 404 /\
    exists message,
      SongsBody [mk_track "t1" "a1" "u1"] = ErrorBody "No Songs Found" message) \/
   (200 = 200 /\
    exists songs,
      SongsBody [mk_track "t1" "a1" "u1"] = SongsBody songs /\ songs <> [])).
Proof.
  split; [reflexivity |].
  exact (response_contract TARGET_SONGS PlaylistSpec.one_song [] _ _ eq_refl).
Defined.

(** X8: a 200 answer of the handler carries the first five kept songs of
    the provider's list, in its order: between one and five entries, each
    with a preview. *)
Theorem ok_body_contract requests_get args songs code :
  get_playlist requests_get args = Ok (SongsBody songs, code) ->
  code = 200 /\
  songs <> [] /\
  Z.of_nat (List.length songs) <= 5 /\
  Forall (fun e => truthy (preview_url e) = true) songs /\
  exists data candidates,
    requests_get DEEZER_API_URL (search_params args) = Json data /\
    getitem data "data" = Ok (List candidates) /\
    songs = playlist_spec TARGET_SONGS candidates.
Proof.
  intros H. unfold get_playlist in H.
  pose proof (get_playlist_ending TARGET_SONGS requests_get args) as He.
  rewrite H in He. remember (Ok (SongsBody songs, code)) as r eqn:Hr.
  destruct He as [Hup | e Hup | data Hup Hm | data Hup Hm
                 | data cands e Hup Hd Hf
                 | data cands st Hup Hd Hf Hpl | data cands st Hup Hd Hf Hpl];
    try discriminate.
  injection Hr as <- <-.
  split; [reflexivity |]. split; [assumption |].
  pose proof (filter_songs_consistent _ _ _ Hf) as [Hb _ _].
  assert (H1 : 1 <= TARGET_SONGS) by (unfold TARGET_SONGS; lia).
  split; [| split; [exact (previews_truthy _ _ Hb) |]].
  - apply for_songs_run, run_count in Hf; unfold count in *; simpl in *;
      unfold TARGET_SONGS in *; lia.
  - exists data, cands. repeat split; try assumption.
    now apply PlaylistSpec.refines_spec.
Qed.

Lemma ok_body_contract_witness :
  get_playlist PlaylistSpec.one_song []
  = Ok (SongsBody [mk_track "t1" "a1" "u1"], 200) /\
  Z.of_nat (List.length [mk_track "t1" "a1" "u1"]) <= 5.
Proof.
  assert (H : get_playlist PlaylistSpec.one_song []
              = Ok (SongsBody [mk_track "t1" "a1" "u1"], 200)) by reflexivity.
  exact (conj H (proj1 (proj2 (proj2 (ok_body_contract _ _ _ _ H))))).
Defined.

(** X9: the handler answers 503 exactly when the call to the provider
    failed. *)
Theorem unavailable_iff_request_failed target requests_get args :
  (exists b, get_playlist_with target requests_get args = Ok (b, 503)) <->
  requests_get DEEZER_API_URL (search_params args) = RequestException.
Proof.
  split.
  - intros [b H].
    pose proof (get_playlist_ending target requests_get args) as He.
    rewrite H in He. remember (Ok (b, 503)) as r eqn:Hr.
    destruct He; try discriminate; assumption.
  - intros H. unfold get_playlist_with. rewrite H. eexists. reflexivity.
Qed.

(** X10: when the provider's JSON is a dict, the test of line 60 raises
    nothing, and the answer is the 404 "no results or unexpected response"
    exactly when the dict has no ["data"] item or that item is not a
    list. *)
Theorem malformed_iff_no_list target requests_get args d :
  requests_get DEEZER_API_URL (search_params args) = Json (Dict d) ->
  (get_playlist_with target requests_get args
   = Ok (malformed_response (q (search_params args))) <->
   forall songs, lookup d "data" <> Some (List songs)).
Proof.
  intros Hup. unfold get_playlist_with. rewrite Hup, data_missing_dict.
  simpl. destruct (lookup d "data") as [v |] eqn:Hl.
  - destruct v as [| | | | | songs |]; simpl;
      try (split; [intros _ songs; discriminate | reflexivity]).
    split; [| intros H; now elim (H songs)].
    destruct (filter_songs target songs) as [st |]; simpl; [| discriminate].
    destruct (filtered_playlist st); discriminate.
  - split; [intros _ songs; discriminate | reflexivity].
Qed.

Lemma malformed_iff_no_list_witness :
  get_playlist (fun _ _ => Json (Dict [("error", Str "quota")])) [("q", "jazz")]
  = Ok (malformed_response "jazz").
Proof.
  apply (malformed_iff_no_list TARGET_SONGS
           (fun _ _ => Json (Dict [("error", Str "quota")])) [("q", "jazz")]
           [("error", Str "quota")] eq_refl).
  intros songs. discriminate.
Defined.

(** X11: an exception escapes the handler only in two ways: the [try]
    block ended with it, not being a [RequestException]; or [data] was
    decoded and the exception is an [AttributeError] or a [TypeError] of
    the lines after the block, where in particular ['data'] is never looked
    up in a dict that lacks it. *)
Theorem escaping_exceptions target requests_get args e :
  get_playlist_with target requests_get args = Raise e ->
  requests_get DEEZER_API_URL (search_params args) = Escaped e \/
  ((exists data,
      requests_get DEEZER_API_URL (search_params args) = Json data) /\
   (e = AttributeError \/ e = TypeError)).
Proof.
  intros H. pose proof (get_playlist_ending target requests_get args) as He.
  rewrite H in He. remember (Raise e) as r eqn:Hr.
  destruct He as [Hup | e' Hup | data Hup Hm | data Hup Hm
                 | data songs e' Hup Hd Hf
                 | data songs st Hup Hd Hf Hpl | data songs st Hup Hd Hf Hpl];
    try discriminate; injection Hr as <-.
  - now left.
  - right. split; [eauto | now right].
  - right. split; [eauto |]. exact (for_songs_raises _ _ _ _ Hf).
Qed.

Lemma escaping_exceptions_witness :
  get_playlist (fun _ _ => Json (Dict [("data", List [None_])])) []
  = Raise AttributeError /\
  get_playlist (fun _ _ => Escaped RecursionError) [] = Raise RecursionError /\
  ((fun _ _ => Json (Dict [("data", List [None_])]))
     DEEZER_API_URL (search_params []) = Escaped AttributeError \/
   ((exists data,
       (fun _ _ => Json (Dict [("data", List [None_])]))
         DEEZER_API_URL (search_params []) = Json data) /\
    (AttributeError = AttributeError \/ AttributeError = TypeError))).
Proof.
  split; [reflexivity |]. split; [reflexivity |].
  exact (escaping_exceptions TARGET_SONGS
           (fun _ _ => Json (Dict [("data", List [None_])])) [] _ eq_refl).
Defined.

End HandlerFacts.

(** ** The mood handler: selection and failures *)

Module MoodFacts.
Import Mood FloatOrder.

Lemma max_from_In best rest : In (max_from best rest) (best :: rest).
Proof.
  revert best. induction rest as [| x rest IH]; intros best; simpl.
  - now left.
  - destruct (float_gt (score x) (score best)).
    + right. apply IH.
    + destruct (IH best) as [H | H]; [now left | right; now right].
Qed.

(** X12: whatever the scores are, NaN included, an answer of the handler
    echoes the request's text and carries the label of one of the pairs of
    the first list the model returned, with that pair's score rounded to
    three decimal places as confidence. *)
Theorem mood_is_a_returned_label emotion_model req r :
  analyze_mood emotion_model req = Py.Ok r ->
  exists result others top,
    emotion_model (text req) = Py.Ok (result :: others) /\
    In top result /\
    input_text r = text req /\
    mood r = label top /\
    Rounding.rounded_to_3 (score top) (confidence r).
Proof.
  unfold analyze_mood, mood_of.
  destruct (emotion_model (text req)) as [[| result others] |]; simpl;
    try discriminate.
  destruct result as [| first rest]; simpl; [discriminate |].
  intros [= <-]. exists (first :: rest), others, (max_from first rest).
  split; [reflexivity |]. split; [apply max_from_In |]. simpl.
  split; [reflexivity |]. split; [reflexivity |].
  apply Rounding.round3_rounded.
Qed.

Lemma mood_is_a_returned_label_witness :
  analyze_mood (fun _ => Py.Ok [MoodSpec.joy_sadness_fine])
    {| text := "so blue" |}
  = Py.Ok {| input_text := "so blue"; mood := "sadness";
             confidence := Rounding.f0_938 |} /\
  exists result others top,
    Py.Ok [MoodSpec.joy_sadness_fine] = Py.Ok (result :: others) /\
    In top result /\
    "so blue" = "so blue" /\
    "sadness" = label top /\
    Rounding.rounded_to_3 (score top) Rounding.f0_938.
Proof.
  split; [vm_compute; reflexivity |].
  exact (mood_is_a_returned_label
           (fun _ => Py.Ok [MoodSpec.joy_sadness_fine])
           {| text := "so blue" |}
           {| input_text := "so blue"; mood := "sadness";
              confidence := Rounding.f0_938 |}
           ltac:(vm_compute; reflexivity)).
Defined.

(** X13: the handler raises exactly in three cases: the call of the model
    raises, and that exception escapes; the model returns no list at all
    ([IndexError]); the first list it returns is empty ([ValueError]). *)
Theorem analyze_mood_raises emotion_model req e :
  analyze_mood emotion_model req = Py.Raise e <->
  emotion_model (text req) = Py.Raise e \/
  (emotion_model (text req) = Py.Ok [] /\ e = Py.IndexError) \/
  (exists others, emotion_model (text req) = Py.Ok ([] :: others) /\
                  e = Py.ValueError).
Proof.
  unfold analyze_mood, mood_of.
  destruct (emotion_model (text req)) as [[| result others] | e']; simpl.
  - split; [intros [= <-]; right; now left |].
    intros [[=] | [[_ ->] | [others [[=] _]]]]. reflexivity.
  - destruct result as [| first rest]; simpl.
    + split; [intros [= <-]; right; right; eauto |].
      intros [[=] | [[[=] _] | [o [_ ->]]]]. reflexivity.
    + split; [discriminate |].
      intros [[=] | [[[=] _] | [o [[=] _]]]].
  - split; [intros [= <-]; now left |].
    intros [[= ->] | [[[=] _] | [o [[=] _]]]]. reflexivity.
Qed.

Lemma label_score_eq_dec (p q : label_score) : {p = q} + {p <> q}.
Proof.
  decide equality.
  - decide equality; auto using Bool.bool_dec, Pos.eq_dec, Z.eq_dec.
  - apply string_dec.
Qed.

(** X14: when one pair of the list has a score greater than that of every
    other pair, none being NaN, it is the pair selected, wherever it stands
    in the list. *)
Theorem strict_maximum_selected result p :
  Forall numeric result ->
  In p result ->
  (forall q, In q result -> q <> p ->
             float_gt (score p) (score q) = true) ->
  max_by_score result = Py.Ok p.
Proof.
  intros Hnum Hin Hmax.
  destruct result as [| first rest]; [now elim Hin |]. simpl. f_equal.
  destruct (max_from_split rest [] first [] Hnum (Forall_nil _) (Forall_nil _))
    as [before [after [Heq [Ha Hb]]]].
  simpl in Heq. set (top := max_from first rest) in *.
  destruct (label_score_eq_dec top p) as [Htop | Hne]; [exact Htop |].
  exfalso.
  assert (Htin : In top (first :: rest)) by apply max_from_In.
  pose proof (Hmax top Htin Hne) as Hgt.
  rewrite Forall_forall in Hnum.
  rewrite Heq in Hin. apply in_app_or in Hin as [Hin | [Hin | Hin]].
  - unfold above in Ha. rewrite Forall_forall in Ha. specialize (Ha p Hin).
    assert (Hp : is_nan (score p) = false).
    { apply Hnum. rewrite Heq. apply in_or_app. now left. }
    assert (Ht : is_nan (score top) = false) by exact (Hnum top Htin).
    apply float_gt_rank in Ha; trivial. apply float_gt_rank in Hgt; trivial.
    exact (lex_lt_asym _ _ Ha Hgt).
  - now apply Hne.
  - unfold not_below in Hb. rewrite Forall_forall in Hb. specialize (Hb p Hin).
    congruence.
Qed.

Lemma strict_maximum_selected_witness :
  Forall numeric (rev MoodSpec.joy_sadness) /\
  max_by_score (rev MoodSpec.joy_sadness)
  = Py.Ok {| label := "sadness"; score := f0_6 |}.
Proof.
  assert (Hnum : Forall numeric (rev MoodSpec.joy_sadness))
    by (repeat constructor).
  split; [exact Hnum |].
  apply (strict_maximum_selected _ _ Hnum); [now left |].
  intros q [<- | [<- | []]] Hq; [now elim Hq | reflexivity].
Defined.

End MoodFacts.

(** ** The audio handler: validation and answers *)

Module UploadFacts.
Import Mood Audio AudioFacts.

(** *** File names *)

Lemma endswith_empty (suffix : string) :
  endswith "" suffix = (String.eqb "" suffix || false)%bool.
Proof. reflexivity. Qed.

Lemma endswith_cons c (s suffix : string) :
  endswith (String c s) suffix
  = (String.eqb (String c s) suffix || endswith s suffix)%bool.
Proof. reflexivity. Qed.

Lemma endswith_iff (s suffix : string) :
  endswith s suffix = true <-> exists pre, s = (pre ++ suffix)%string.
Proof.
  induction s as [| c s IH].
  - rewrite endswith_empty, orb_false_r, String.eqb_eq. split.
    + intros <-. now exists "".
    + intros [pre H]. destruct pre; simpl in H; [exact H | discriminate].
  - rewrite endswith_cons, orb_true_iff, String.eqb_eq, IH. split.
    + intros [<- | [pre ->]]; [now exists "" | now exists (String c pre)].
    + intros [[| c' pre] H]; simpl in H; [now left |].
      injection H as <- ->. right. now exists pre.
Qed.

Lemma lower_app (a b : string) :
  lower (a ++ b) = (lower a ++ lower b)%string.
Proof. induction a as [| c a IH]; simpl; [reflexivity | now rewrite IH]. Qed.

Lemma lower_split (a b : string) :
  forall s, lower s = (a ++ b)%string ->
  exists s1 s2, s = (s1 ++ s2)%string /\ lower s1 = a /\ lower s2 = b.
Proof.
  induction a as [| c a IH]; intros s H; simpl in H.
  - exists "", s. auto.
  - destruct s as [| c0 s]; simpl in H; [discriminate |].
    injection H as Hc Hs. destruct (IH s Hs) as [s1 [s2 [-> [H1 H2]]]].
    exists (String c0 s1), s2. simpl. rewrite Hc, H1. auto.
Qed.

Lemma lowered_extension (name : string) :
  allowed_format name = true <->
  exists stem ext,
    name = (stem ++ ext)%string /\
    In (lower ext) [".wav"; ".mp3"; ".m4a"].
Proof.
  unfold allowed_format. rewrite existsb_exists. split.
  - intros [x [Hx Hend]]. apply endswith_iff in Hend as [pre Hpre].
    destruct (lower_split _ _ _ Hpre) as [stem [ext [-> [_ Hext]]]].
    exists stem, ext. now rewrite Hext.
  - intros [stem [ext [-> Hin]]]. exists (lower ext). split; [exact Hin |].
    apply endswith_iff. exists (lower stem). apply lower_app.
Qed.

(** The capital of a small ASCII letter; any other character itself. *)
Definition upper_char (c : ascii) : ascii :=
  let n := nat_of_ascii c in
  if (Nat.leb 97 n && Nat.leb n 122)%bool then ascii_of_nat (n - 32) else c.

(** What [lower_char] sends to [d]: [d] itself, or its capital. *)
Lemma lower_char_inv (c d : ascii) :
  lower_char c = d -> c = d \/ c = upper_char d.
Proof.
  intros <-.
  destruct c as [[] [] [] [] [] [] [] []]; vm_compute;
    first [left; reflexivity | right; reflexivity].
Qed.

(** The three extensions, each letter small or capital. *)
Definition accepted_extensions : list string :=
  [ ".wav"; ".waV"; ".wAv"; ".wAV"; ".Wav"; ".WaV"; ".WAv"; ".WAV";
    ".mp3"; ".mP3"; ".Mp3"; ".MP3";
    ".m4a"; ".m4A"; ".M4a"; ".M4A" ].

Ltac pick_member :=
  solve [left; reflexivity] || (right; pick_member).

Lemma lowered_to_extension (ext : string) :
  In (lower ext) [".wav"; ".mp3"; ".m4a"] <-> In ext accepted_extensions.
Proof.
  split.
  - intros H.
    assert (Hlen : exists c1 c2 c3 c4,
               ext = String c1 (String c2 (String c3 (String c4 "")))).
    { destruct ext as [| c1 [| c2 [| c3 [| c4 [| c5 r]]]]]; simpl in H;
        try (destruct H as [H | [H | [H | []]]]; discriminate).
      eauto. }
    destruct Hlen as [c1 [c2 [c3 [c4 ->]]]]. simpl in H.
    destruct H as [H | [H | [H | []]]];
      injection H as H1 H2 H3 H4;
      symmetry in H1, H2, H3, H4;
      apply lower_char_inv in H1, H2, H3, H4;
      vm_compute in H1, H2, H3, H4;
      destruct H1 as [-> | ->], H2 as [-> | ->],
               H3 as [-> | ->], H4 as [-> | ->];
      unfold accepted_extensions; pick_member.
  - unfold accepted_extensions. intros H.
    repeat (destruct H as [<- | H]; [vm_compute; pick_member |]).
    destruct H.
Qed.

(** X15: a file name passes the format check exactly when it ends in
    [.wav], [.mp3] or [.m4a], each letter of the extension small or
    capital; what stands before the extension is not looked at, and may be
    empty. *)
Theorem allowed_format_iff (name : string) :
  allowed_format name = true <->
  exists stem ext,
    name = (stem ++ ext)%string /\ In ext accepted_extensions.
Proof.
  rewrite lowered_extension. split.
  - intros [stem [ext [Hname Hin]]]. exists stem, ext.
    split; [exact Hname | now apply lowered_to_extension].
  - intros [stem [ext [Hname Hin]]]. exists stem, ext.
    split; [exact Hname | now apply lowered_to_extension].
Qed.

Example capital_extension_allowed :
  allowed_format "VOICE.WAV" = true /\ allowed_format "memo.Mp3" = true /\
  allowed_format "voice.wave" = false /\ allowed_format "wav" = false.
Proof. repeat split. Qed.

(** *** The answers *)

Definition unsupported_format : audio_response :=
  AudioError "Unsupported file format. Please upload WAV, MP3, or M4A file".

(** The handler on an upload within the cap: the file name, then the
    recognizer on all the bytes, then the mood. *)
Lemma analyze_audio_within recognize emotion_model file :
  Z.of_nat (List.length (stream file)) <= MAX_FILE_SIZE ->
  analyze_audio recognize emotion_model file
  = match filename file with
    | None => Py.Raise Py.AttributeError
    | Some name =>
        if negb (allowed_format name) then Py.Ok unsupported_format
        else
          match recognize (stream file) with
          | Recognized text =>
              Py.bind (mood_of emotion_model text)
                (fun r => Py.Ok (AudioMood r))
          | UnknownValueError =>
              Py.Ok (AudioError "Could not understand audio")
          | RequestError =>
              Py.Ok (AudioError "Speech recognition service failed")
          | Failed e => Py.Raise e
          end
    end.
Proof.
  intros Hsmall. unfold analyze_audio, read_upload.
  rewrite (read_within_cap CHUNK_SIZE MAX_FILE_SIZE (stream file)
             AudioSpec.chunk_size_positive AudioSpec.cap_not_negative Hsmall).
  reflexivity.
Qed.

Lemma analyze_audio_over recognize emotion_model file :
  MAX_FILE_SIZE < Z.of_nat (List.length (stream file)) ->
  analyze_audio recognize emotion_model file = Py.Ok too_large.
Proof.
  intros Hbig. unfold analyze_audio, read_upload.
  destruct (read_over_cap CHUNK_SIZE MAX_FILE_SIZE (stream file)
              AudioSpec.chunk_size_positive AudioSpec.cap_not_negative Hbig)
    as [u [c [ch [-> _]]]].
  reflexivity.
Qed.

(** X16: the cap is exact: the answer is the "too large" error if and only
    if the upload has more than 10 MiB, whatever its name and whatever the
    recognizer and the model would say; an upload of exactly 10 MiB is not
    refused for its size. *)
Theorem too_large_iff recognize emotion_model file :
  analyze_audio recognize emotion_model file = Py.Ok too_large <->
  MAX_FILE_SIZE < Z.of_nat (List.length (stream file)).
Proof.
  split; [| apply analyze_audio_over].
  intros H.
  destruct (Z_lt_le_dec MAX_FILE_SIZE (Z.of_nat (List.length (stream file))))
    as [Hbig | Hsmall]; [exact Hbig | exfalso].
  rewrite (analyze_audio_within _ _ _ Hsmall) in H.
  destruct (filename file) as [name |]; [| discriminate].
  destruct (negb (allowed_format name)); [discriminate |].
  destruct (recognize (stream file)) as [text | | | e]; try discriminate.
  destruct (mood_of emotion_model text); discriminate.
Qed.

(** X17: when an upload is refused for its size, [contents] holds exactly
    its first 10 MiB (the cap is a whole number of chunks), and the chunk
    read last, of 1 to 8192 bytes, was not added to it. *)
Theorem refused_at_the_cap (file : bytes) :
  MAX_FILE_SIZE < Z.of_nat (List.length file) ->
  exists unread chunk,
    read_upload file
    = TooLarge unread (MAX_FILE_SIZE + Z.of_nat (List.length chunk))
        (firstn (Z.to_nat MAX_FILE_SIZE) file) chunk /\
    Z.of_nat (List.length (firstn (Z.to_nat MAX_FILE_SIZE) file))
    = MAX_FILE_SIZE /\
    0 < Z.of_nat (List.length chunk) <= 8192 /\
    file = firstn (Z.to_nat MAX_FILE_SIZE) file ++ chunk ++ unread.
Proof.
  intros Hbig. unfold read_upload.
  destruct (read_over_cap CHUNK_SIZE MAX_FILE_SIZE file
              AudioSpec.chunk_size_positive AudioSpec.cap_not_negative Hbig)
    as [u [c [ch [Hread [Hsplit [_ [Hlen [[k Hk] [Hc Hover]]]]]]]]].
  pose proof AudioSpec.chunk_size_bytes as Hsize.
  assert (Hcz : Z.of_nat (List.length c) = MAX_FILE_SIZE).
  { rewrite Hk, Nat2Z.inj_mul, Hsize in *.
    unfold MAX_FILE_SIZE in *. lia. }
  assert (Hfirst : firstn (Z.to_nat MAX_FILE_SIZE) file = c).
  { rewrite Hsplit.
    replace (Z.to_nat MAX_FILE_SIZE) with (List.length c + 0)%nat by lia.
    rewrite firstn_app_2. simpl. apply app_nil_r. }
  exists u, ch. rewrite Hfirst, Hread, Hcz.
  split; [reflexivity |]. split; [reflexivity |]. split; [lia | exact Hsplit].
Qed.

Lemma refused_at_the_cap_witness :
  MAX_FILE_SIZE
  < Z.of_nat (List.length (stream AudioSpec.big_upload)) /\
  exists unread chunk,
    read_upload (stream AudioSpec.big_upload)
    = TooLarge unread (MAX_FILE_SIZE + Z.of_nat (List.length chunk))
        (firstn (Z.to_nat MAX_FILE_SIZE) (stream AudioSpec.big_upload))
        chunk.
Proof.
  assert (H : MAX_FILE_SIZE
              < Z.of_nat (List.length (stream AudioSpec.big_upload))).
  { cbv [AudioSpec.big_upload stream]. rewrite repeat_length.
    unfold MAX_FILE_SIZE. lia. }
  split; [exact H |].
  destruct (refused_at_the_cap (stream AudioSpec.big_upload) H)
    as [u [ch [Hr _]]].
  exists u, ch. exact Hr.
Defined.

(** X18: the handler answers with a mood exactly when the upload is within
    the cap, its name passes the format check, the recognizer, given all
    the bytes of the upload in order, returns a text, and the text handler
    answers with that mood for that text. *)
Theorem audio_mood_iff recognize emotion_model file r :
  analyze_audio recognize emotion_model file = Py.Ok (AudioMood r) <->
  Z.of_nat (List.length (stream file)) <= MAX_FILE_SIZE /\
  exists name heard,
    filename file = Some name /\
    allowed_format name = true /\
    recognize (stream file) = Recognized heard /\
    analyze_mood emotion_model {| text := heard |} = Py.Ok r.
Proof.
  unfold analyze_mood. simpl. split.
  - intros H.
    destruct (Z_lt_le_dec MAX_FILE_SIZE (Z.of_nat (List.length (stream file))))
      as [Hbig | Hsmall].
    + rewrite (analyze_audio_over _ _ _ Hbig) in H. discriminate.
    + split; [exact Hsmall |].
      rewrite (analyze_audio_within _ _ _ Hsmall) in H.
      destruct (filename file) as [name |]; [| discriminate].
      destruct (allowed_format name) eqn:Hname; simpl in H; [| discriminate].
      destruct (recognize (stream file)) as [heard | | | e];
        try discriminate.
      exists name, heard.
      split; [reflexivity |]. split; [exact Hname |]. split; [reflexivity |].
      destruct (mood_of emotion_model heard); simpl in H; [| discriminate].
      now injection H as ->.
  - intros [Hsmall [name [heard [Hname [Hok [Hrec Hmood]]]]]].
    rewrite (analyze_audio_within _ _ _ Hsmall), Hname, Hok, Hrec, Hmood.
    reflexivity.
Qed.

(** X19: the handler answers with the "unsupported format" error exactly
    when the upload is within the cap and its name fails the format check;
    the recognizer and the model have no say in it. *)
Theorem unsupported_iff recognize emotion_model file :
  analyze_audio recognize emotion_model file = Py.Ok unsupported_format <->
  Z.of_nat (List.length (stream file)) <= MAX_FILE_SIZE /\
  exists name, filename file = Some name /\ allowed_format name = false.
Proof.
  split.
  - intros H.
    destruct (Z_lt_le_dec MAX_FILE_SIZE (Z.of_nat (List.length (stream file))))
      as [Hbig | Hsmall].
    + rewrite (analyze_audio_over _ _ _ Hbig) in H. discriminate.
    + split; [exact Hsmall |].
      rewrite (analyze_audio_within _ _ _ Hsmall) in H.
      destruct (filename file) as [name |]; [| discriminate].
      exists name. split; [reflexivity |].
      destruct (allowed_format name); [| reflexivity]. simpl in H.
      destruct (recognize (stream file)) as [heard | | | e];
        try discriminate.
      destruct (mood_of emotion_model heard); discriminate.
  - intros [Hsmall [name [Hname Hbad]]].
    now rewrite (analyze_audio_within _ _ _ Hsmall), Hname, Hbad.
Qed.

(** X20: the handler raises in three cases only: the upload is within the
    cap and has no file name, or the recognizer fails with something else
    than its two recognition errors, or the text handler raises on the
    recognized text. *)
Theorem analyze_audio_raises recognize emotion_model file e :
  analyze_audio recognize emotion_model file = Py.Raise e <->
  Z.of_nat (List.length (stream file)) <= MAX_FILE_SIZE /\
  ((filename file = None /\ e = Py.AttributeError) \/
   exists name,
     filename file = Some name /\ allowed_format name = true /\
     (recognize (stream file) = Failed e \/
      exists heard,
        recognize (stream file) = Recognized heard /\
        analyze_mood emotion_model {| text := heard |} = Py.Raise e)).
Proof.
  unfold analyze_mood. simpl. split.
  - intros H.
    destruct (Z_lt_le_dec MAX_FILE_SIZE (Z.of_nat (List.length (stream file))))
      as [Hbig | Hsmall].
    + rewrite (analyze_audio_over _ _ _ Hbig) in H. discriminate.
    + split; [exact Hsmall |].
      rewrite (analyze_audio_within _ _ _ Hsmall) in H.
      destruct (filename file) as [name |];
        [| injection H as <-; left; auto].
      right. exists name. split; [reflexivity |].
      destruct (allowed_format name); simpl in H; [| discriminate].
      split; [reflexivity |].
      destruct (recognize (stream file)) as [heard | | | e'];
        try discriminate.
      * right. exists heard. split; [reflexivity |].
        destruct (mood_of emotion_model heard); simpl in H;
          [discriminate | now injection H as ->].
      * left. now injection H as ->.
  - intros [Hsmall [[Hname ->] | [name [Hname [Hok [Hrec | [heard [Hrec Hm]]]]]]]];
      rewrite (analyze_audio_within _ _ _ Hsmall), Hname; trivial;
      rewrite Hok, Hrec; simpl; [reflexivity | now rewrite Hm].
Qed.

End UploadFacts.

(** ** The filtering loop: repeated songs *)

Module LoopRepeats.
Import Py PyFacts Playlist LoopFacts.

(** The iteration passes over [song] in state [st]. *)
Definition passed_over (target : Z) (song : value) (st : loop_state) : Prop :=
  loop_body target st song = Ok (st, Continue).

Lemma outcome_seen target st x st' fl :
  outcome target st x st' fl ->
  forall k, In k (seen_track_ids st) -> In k (seen_track_ids st').
Proof.
  intros Ho k Hin. destruct Ho; simpl; auto; apply in_or_app; now left.
Qed.

Lemma push_changes st e k song : push st e k song <> st.
Proof.
  intros H. apply (f_equal (fun s => List.length (filtered_playlist s))) in H.
  simpl in H. rewrite length_app in H. simpl in H. lia.
Qed.

Lemma passed_over_iff target song st :
  passed_over target song st <->
  exists e, track_of song = Ok e /\
    (truthy (preview_url e) = false \/
     exists k, track_key song = Ok k /\ In k (seen_track_ids st)).
Proof.
  unfold passed_over. rewrite loop_body_unfold. split.
  - destruct (track_of song) as [e |]; simpl; [| discriminate].
    intros H. exists e. split; [reflexivity |].
    destruct (truthy (preview_url e)); [right | now left].
    destruct (track_key song) as [k |]; simpl in H; [| discriminate].
    exists k. split; [reflexivity |].
    destruct (set_mem k (seen_track_ids st)) eqn:Hmem;
      [now apply set_mem_In |].
    destruct (_ >=? _); [discriminate |].
    injection H as H. now apply push_changes in H.
  - intros [e [-> [Hp | [k [Hk Hin]]]]]; simpl.
    + now rewrite Hp.
    + destruct (truthy (preview_url e)); [| reflexivity].
      rewrite Hk. simpl. apply set_mem_In in Hin. now rewrite Hin.
Qed.

(** Once passed over, always passed over: the set only grows. *)
Lemma passed_over_stable target song st x st' fl :
  outcome target st x st' fl ->
  passed_over target song st -> passed_over target song st'.
Proof.
  intros Ho Hp. apply passed_over_iff in Hp as [e [He Hp]].
  apply passed_over_iff. exists e. split; [exact He |].
  destruct Hp as [Hp | [k [Hk Hin]]]; [now left | right].
  exists k. split; [exact Hk |]. eapply outcome_seen; eauto.
Qed.

(** After it has been read without leaving the loop, a song is passed
    over. *)
Lemma passed_over_after target song st st1 :
  outcome target st song st1 Continue -> passed_over target song st1.
Proof.
  unfold passed_over. intros Ho. apply loop_body_outcome.
  inversion Ho as [e He Hpv | e k He Hpv Hk Hin | e k He Hpv Hk Hin Hlt |];
    subst.
  - eapply no_preview; eauto.
  - eapply duplicate; eauto.
  - eapply duplicate; eauto. simpl. apply in_or_app. right. now left.
Qed.

Lemma for_songs_passed_over target song mid post :
  forall st, passed_over target song st ->
  for_songs target st (mid ++ song :: post)
  = for_songs target st (mid ++ post).
Proof.
  induction mid as [| x mid IH]; intros st Hp; simpl.
  - unfold passed_over in Hp. now rewrite Hp.
  - destruct (loop_body target st x) as [[st1 []] |] eqn:Hb; trivial.
    apply IH. apply loop_body_outcome in Hb.
    eapply passed_over_stable; eauto.
Qed.

Lemma for_songs_congruence target pre l1 l2 :
  (forall st, for_songs target st l1 = for_songs target st l2) ->
  forall st, for_songs target st (pre ++ l1) = for_songs target st (pre ++ l2).
Proof.
  intros H. induction pre as [| x pre IH]; intros st; simpl; [apply H |].
  destruct (loop_body target st x) as [[st1 []] |]; auto.
Qed.

(** X21: a song that occurs a second time in the input is passed over the
    second time: taking the later occurrence out changes nothing, whatever
    the song is and whether the first occurrence was accepted or not. *)
Theorem repeated_song_ignored target song pre mid post :
  filter_songs target (pre ++ song :: mid ++ song :: post)
  = filter_songs target (pre ++ song :: mid ++ post).
Proof.
  unfold filter_songs. apply for_songs_congruence. intros st. simpl.
  destruct (loop_body target st song) as [[st1 []] |] eqn:Hb; trivial.
  apply for_songs_passed_over. apply loop_body_outcome in Hb.
  eapply passed_over_after; eauto.
Qed.

End LoopRepeats.
